(** * Point service: balance ledger behind an in-memory keyed lock

    Verification of [src/point/point.service.ts] ([PointService]) and
    [src/utils/memory-lock.manager.ts] ([MemoryLockManager]).

    Numbers are JavaScript numbers holding integers (user ids come through
    [ParseIntPipe], timestamps from [Date.now()]).  They are modelled by [Z];
    [+] and [-] of the source are [js_add] and [js_sub], which round the
    exact result to the nearest double as IEEE 754 does: exact up to 2^53,
    rounded beyond.

    The development has three layers:
    - the two tables and the closures that [PointService] hands to
      [withLock], written in direct style in a small state-and-exception
      monad, one [await] after the other;
    - the same closures cut at their [await]s, so that they can be
      interleaved ([op_call], [op_resume]), with a lemma that the cut
      version run alone is the direct one;
    - the event loop: a list of calls in flight, the lock manager's two
      maps, its timers and promises, and a [step] function per event. *)

From stdpp Require Import gmap strings list fin_maps pretty.
From Stdlib Require Import ZArith Lia Sorting.Sorted Sorting.Permutation.

Local Open Scope Z_scope.

(** ** JavaScript numbers *)

(** [Number.MAX_SAFE_INTEGER], 2^53 - 1, and [Number.isSafeInteger] on
    integers. *)
Definition MAX_SAFE_INTEGER : Z := 9007199254740991.
Definition isSafeInteger (x : Z) : Prop := - MAX_SAFE_INTEGER <= x <= MAX_SAFE_INTEGER.

(** The double nearest to the integer [x], ties to the even significand: [x]
    itself up to 2^53 in magnitude; beyond, [x] is cut to 53 significant bits
    [q] at the exponent [e] and rounded on the remainder [r].  Doubles are
    finite below 2^1024 only; sums that large, [Infinity] in JavaScript, are
    beyond this model. *)
Definition toDouble (x : Z) : Z :=
  let a := Z.abs x in
  if a <=? 2 ^ 53 then x
  else
    let e := Z.log2 a - 52 in
    let q := a / 2 ^ e in
    let r := a mod 2 ^ e in
    let up := (2 ^ e <? 2 * r) || ((2 ^ e =? 2 * r) && Z.odd q) in
    Z.sgn x * ((if up then q + 1 else q) * 2 ^ e).

(** [a + b] and [a - b] on numbers. *)
Definition js_add (a b : Z) : Z := toDouble (a + b).
Definition js_sub (a b : Z) : Z := toDouble (a - b).

(** The delay [setTimeout(callback, ms)] really uses: Node keeps [ms] when it
    lies between 1 and [TIMEOUT_MAX], 2^31 - 1, and takes 1 otherwise. *)
Definition TIMEOUT_MAX : Z := 2147483647.
Definition setTimeout_delay (ms : Z) : Z :=
  if (1 <=? ms) && (ms <=? TIMEOUT_MAX) then ms else 1.

(** The largest time value of a [Date]. *)
Definition MAX_TIME : Z := 8640000000000000.

(** ** Data model ([point.model]) *)

Inductive TransactionType := CHARGE | USE.

(** [UserPoint]: [{ id, point, updateMillis }]. *)
Record UserPoint := mkUserPoint {
  up_id : Z;
  up_point : Z;
  up_updateMillis : Z
}.

(** [PointHistory]: [{ id, userId, amount, type, timeMillis }]. *)
Record PointHistory := mkPointHistory {
  ph_id : Z;
  ph_userId : Z;
  ph_amount : Z;
  ph_type : TransactionType;
  ph_timeMillis : Z
}.

(** What a rejected promise carries: Nest's [BadRequestException] or a plain
    [Error], each with its message. *)
Inductive exn :=
| BadRequestException (message : string)
| Error (message : string).

#[global] Instance TransactionType_eq_dec : EqDecision TransactionType.
Proof. solve_decision. Defined.
#[global] Instance UserPoint_eq_dec : EqDecision UserPoint.
Proof. solve_decision. Defined.
#[global] Instance PointHistory_eq_dec : EqDecision PointHistory.
Proof. solve_decision. Defined.
#[global] Instance exn_eq_dec : EqDecision exn.
Proof. solve_decision. Defined.

(** ** The world the service runs in *)

(** The two tables and the wall clock read by [Date.now()]. *)
Record World := mkWorld {
  userPointTable : gmap Z UserPoint;
  pointHistoryTable : list PointHistory;
  now : Z
}.

(** A computation that may throw: the body of an [async] function between
    two points where other code can run. *)
Definition M (A : Type) : Type := World -> (exn + A) * World.

Definition ret {A} (a : A) : M A := fun w => (inr a, w).
Definition throw {A} (e : exn) : M A := fun w => (inl e, w).
Definition bind {A B} (m : M A) (f : A -> M B) : M B :=
  fun w =>
    match m w with
    | (inl e, w') => (inl e, w')
    | (inr a, w') => f a w'
    end.

Notation "x <- m ;; k" := (bind m (fun x => k))
  (at level 100, m at next level, right associativity).
Notation "m ;;; k" := (bind m (fun _ => k))
  (at level 100, right associativity).

(** [Date.now()]. *)
Definition Date_now : M Z := fun w => (inr (now w), w).

(** Time that passes while a promise is pending. *)
Definition sleep (ms : N) : M unit :=
  fun w => (inr tt, mkWorld (userPointTable w) (pointHistoryTable w) (now w + Z.of_N ms)).

(** [await] of a table call that settles after [ms] milliseconds. *)
Definition await {A} (ms : N) (m : M A) : M A := sleep ms ;;; m.

(** The balance a user has on record, 0 when there is none. *)
Definition balance (w : World) (id : Z) : Z :=
  from_option up_point 0 (userPointTable w !! id).

(** Modelled from the spec: [UserPointTable] ([src/database/userpoint.table])
    is not among the sources.  BalanceStore [get(userId)] returns the stored
    balance, or a zero-value record for an unknown user, and never fails. *)
Definition selectById (id : Z) : M UserPoint :=
  fun w =>
    (inr (default (mkUserPoint id 0 (now w)) (userPointTable w !! id)), w).

(** Modelled from the spec: BalanceStore [put] overwrites the one record of
    the user.  The service passes the id and the amount only, so the record's
    timestamp is the table's own reading of the clock. *)
Definition insertOrUpdate (id amount : Z) : M unit :=
  fun w =>
    (inr tt,
     mkWorld (<[id := mkUserPoint id amount (now w)]> (userPointTable w))
             (pointHistoryTable w) (now w)).

(** Modelled from the spec: [PointHistoryTable]
    ([src/database/pointhistory.table]) is not among the sources.
    HistoryStore [append] adds one entry at the end of the log (the ordering
    of the log is insertion order); the entry's id is opaque, here its
    1-based position. *)
Definition insert (userId amount : Z) (type : TransactionType) (timeMillis : Z)
  : M unit :=
  fun w =>
    (inr tt,
     mkWorld (userPointTable w)
             (pointHistoryTable w ++
                [mkPointHistory (Z.of_nat (length (pointHistoryTable w)) + 1)
                                userId amount type timeMillis])
             (now w)).

(** Modelled from the spec: HistoryStore [listByUser] returns the entries of
    one user, here in the order of the log. *)
Definition selectAllByUserId (userId : Z) : M (list PointHistory) :=
  fun w => (inr (filter (fun h => ph_userId h = userId) (pointHistoryTable w)), w).

(** How long each of the three awaited table calls of one mutation takes. *)
Record Latency := mkLatency {
  selectMs : N;
  updateMs : N;
  insertMs : N
}.

(** ** [PointService], direct style *)

Definition msg_charge_amount : string := "충전 금액은 0보다 커야 합니다.".
Definition msg_use_amount : string := "사용 금액은 0보다 커야 합니다.".
Definition msg_insufficient : string := "포인트가 부족합니다.".

(** The spec's names for the three rejections of the service. *)
Definition InvalidAmount (type : TransactionType) : exn :=
  match type with
  | CHARGE => BadRequestException msg_charge_amount
  | USE => BadRequestException msg_use_amount
  end.
Definition InsufficientBalance : exn := BadRequestException msg_insufficient.

(** [getUserPoint]. *)
Definition getUserPoint (userId : Z) : M UserPoint := selectById userId.

(** The closure [chargePoint] passes to [withLock] (point.service.ts 29-51). *)
Definition chargePoint_operation (lat : Latency) (userId amount : Z) : M UserPoint :=
  if amount <=? 0 then throw (BadRequestException msg_charge_amount)
  else
    userPoint <- await (selectMs lat) (selectById userId) ;;
    let chargedPoint := js_add (up_point userPoint) amount in
    updateTime <- Date_now ;;
    await (updateMs lat) (insertOrUpdate userId chargedPoint) ;;;
    await (insertMs lat) (insert userId amount CHARGE updateTime) ;;;
    ret (mkUserPoint userId chargedPoint updateTime).

(** The closure [usePoint] passes to [withLock] (point.service.ts 58-85). *)
Definition usePoint_operation (lat : Latency) (userId amount : Z) : M UserPoint :=
  if amount <=? 0 then throw (BadRequestException msg_use_amount)
  else
    userPoint <- await (selectMs lat) (selectById userId) ;;
    if up_point userPoint <? amount then throw (BadRequestException msg_insufficient)
    else
      let usedPoint := js_sub (up_point userPoint) amount in
      updateTime <- Date_now ;;
      await (updateMs lat) (insertOrUpdate userId usedPoint) ;;;
      await (insertMs lat) (insert userId amount USE updateTime) ;;;
      ret (mkUserPoint userId usedPoint updateTime).

(** [Array.prototype.sort(comparefn)]: a stable sort; [a] stays before [b]
    unless [comparefn a b > 0].  With a consistent comparator every stable
    sort returns the same array, computed here by insertion. *)
Section Array_sort.
Context {A : Type} (comparefn : A -> A -> Z).

Fixpoint sort_insert (a : A) (l : list A) : list A :=
  match l with
  | [] => [a]
  | b :: l' => if comparefn a b <=? 0 then a :: l else b :: sort_insert a l'
  end.

Definition Array_sort (l : list A) : list A := foldr sort_insert [] l.
End Array_sort.

(** [getPointHistories] (point.service.ts 91-95). *)
Definition getPointHistories (userId : Z) : M (list PointHistory) :=
  histories <- selectAllByUserId userId ;;
  ret (Array_sort (fun a b => js_sub (ph_timeMillis b) (ph_timeMillis a)) histories).

(** ** The closures, cut at their awaits *)

(** One call of the service: which closure, on which user, with which
    amount, and the key and timeout it gives [withLock]. *)
Record Call := mkCall {
  c_type : TransactionType;
  c_userId : Z;
  c_amount : Z;
  c_key : string;
  c_timeoutMs : Z
}.

(** The key both mutations lock on: [`user:${userId}`]. *)
Definition userKey (userId : Z) : string := "user:" +:+ pretty userId.

(** [withLock]'s default for [timeoutMs]; the service never passes another. *)
Definition defaultTimeoutMs : Z := 5000.

Definition chargePoint (userId amount : Z) : Call :=
  mkCall CHARGE userId amount (userKey userId) defaultTimeoutMs.

(** Where a running closure is suspended. *)
Inductive op_state :=
| AwaitSelect
| AwaitUpdate (newPoint updateTime : Z)
| AwaitInsert (newPoint updateTime : Z).

(** [operation()]: the closure up to its first [await]. *)
Definition op_call (c : Call) : exn + op_state :=
  if c_amount c <=? 0 then inl (InvalidAmount (c_type c)) else inr AwaitSelect.

(** The pending table call settles and the closure runs on to its next
    [await], or to its [return]. *)
Definition op_resume (c : Call) (s : op_state) : M (op_state + UserPoint) :=
  match s with
  | AwaitSelect =>
      userPoint <- selectById (c_userId c) ;;
      match c_type c with
      | CHARGE =>
          updateTime <- Date_now ;;
          ret (inl (AwaitUpdate (js_add (up_point userPoint) (c_amount c)) updateTime))
      | USE =>
          if up_point userPoint <? c_amount c then throw InsufficientBalance
          else
            updateTime <- Date_now ;;
            ret (inl (AwaitUpdate (js_sub (up_point userPoint) (c_amount c)) updateTime))
      end
  | AwaitUpdate newPoint updateTime =>
      insertOrUpdate (c_userId c) newPoint ;;;
      ret (inl (AwaitInsert newPoint updateTime))
  | AwaitInsert newPoint updateTime =>
      insert (c_userId c) (c_amount c) (c_type c) updateTime ;;;
      ret (inr (mkUserPoint (c_userId c) newPoint updateTime))
  end.

(** ** [MemoryLockManager] and the event loop *)

(** [withLock] is an [async] function: it runs from one [await] to the next
    while other calls run in between.  It is modelled by its segments:
    [withLock_enter] (lines 16-38, up to [await this.locks.get(key)] or
    [await operation()]), [withLock_finally] (lines 39-45) and the timer
    callback [withLock_onTimeout] (lines 31-34); [withLock_resume] runs call
    [i] from where it is suspended to its next suspension. *)

(** Where one [withLock] call is: not made yet; suspended at
    [await this.locks.get(key)] on the promise of call [p], with the deadline
    it computed when it was made; holding the lock, suspended at
    [await operation()] while the closure is suspended at [s]; holding the
    lock with the closure settled, the [finally] block still to run; returned
    or thrown. *)
Inductive pc :=
| NotCalled
| Waiting (maxWaitTime : Z) (p : nat)
| Running (s : op_state)
| Settled (r : exn + UserPoint)
| Finished (r : exn + UserPoint).

Record Task := mkTask {
  t_call : Call;
  t_pc : pc
}.

(** The manager's two maps, the timers that are set and the lock promises
    that are resolved.  Every call creates at most one promise and one timer;
    both are named by the position of the call in the task list. *)
Record LockManager := mkLockManager {
  locks : gmap string nat;
  timeouts : gmap string nat;
  armed : gmap nat Z;
  resolved : gset nat
}.

Record System := mkSystem {
  tasks : list Task;
  mgr : LockManager;
  world : World
}.

Definition lock_timeout (key : string) : exn :=
  Error ("Lock timeout for key: " +:+ key).

(** [await operation()] (memory-lock.manager.ts 38) right after the call: the
    closure has thrown on its amount, or is suspended at its first [await]. *)
Definition after_call (c : Call) : pc :=
  match op_call c with
  | inl e => Settled (inl e)
  | inr s => Running s
  end.

(** The same once the closure has been resumed: it has thrown, is suspended
    again, or has returned. *)
Definition after_resume (r : exn + (op_state + UserPoint)) : pc :=
  match r with
  | inl e => Settled (inl e)
  | inr (inl s') => Running s'
  | inr (inr v) => Settled (inr v)
  end.

(** Taking the lock at time [t] (memory-lock.manager.ts 26-35): the promise
    of call [i] goes into [locks], its timer is set with
    [setTimeout(..., timeoutMs)] and goes into [timeouts].  [armed] holds the
    time the event loop runs the timer at the earliest. *)
Definition acquired (i : nat) (c : Call) (t : Z) (m : LockManager) : LockManager :=
  mkLockManager (<[c_key c := i]> (locks m))
                (<[c_key c := i]> (timeouts m))
                (<[i := t + setTimeout_delay (c_timeoutMs c)]> (armed m))
                (resolved m).

(** The [while] loop's condition and what follows it (memory-lock.manager.ts
    18-38), for call [i] at the current time: give up, wait for the holder's
    promise, or take the lock, set the timer and call the operation. *)
Definition withLock_enter (i : nat) (c : Call) (maxWaitTime : Z)
  (m : LockManager) (w : World) : pc * LockManager :=
  match locks m !! c_key c with
  | Some p =>
      if now w >? maxWaitTime then (Finished (inl (lock_timeout (c_key c))), m)
      else (Waiting maxWaitTime p, m)
  | None => (after_call c, acquired i c (now w) m)
  end.

(** [clearTimeout(t)], with [t] possibly [undefined]. *)
Definition clearTimeout (t : option nat) (a : gmap nat Z) : gmap nat Z :=
  match t with
  | Some t => delete t a
  | None => a
  end.

(** The [finally] block (memory-lock.manager.ts 39-45) of call [i]. *)
Definition withLock_finally (i : nat) (c : Call) (m : LockManager) : LockManager :=
  mkLockManager (delete (c_key c) (locks m))
                (delete (c_key c) (timeouts m))
                (clearTimeout (timeouts m !! c_key c) (armed m))
                ({[i]} ∪ resolved m).

(** The timer callback (memory-lock.manager.ts 31-34) of call [i]. *)
Definition withLock_onTimeout (i : nat) (c : Call) (m : LockManager) : LockManager :=
  mkLockManager (delete (c_key c) (locks m))
                (timeouts m)
                (delete i (armed m))
                ({[i]} ∪ resolved m).

Definition set_pc (i : nat) (t : Task) (p : pc) (ts : list Task) : list Task :=
  <[i := mkTask (t_call t) p]> ts.

(** What the event loop can do next: let time pass, run call [i] from where
    it is suspended to its next suspension, or run the timer of call [i]. *)
Inductive event :=
| Tick (ms : N)
| Resume (i : nat)
| Timeout (i : nat).

Definition withLock_resume (i : nat) (t : Task) (sys : System) : option System :=
  let c := t_call t in
  match t_pc t with
  | NotCalled =>
      let maxWaitTime := js_add (now (world sys)) (c_timeoutMs c) in
      let '(p, m) := withLock_enter i c maxWaitTime (mgr sys) (world sys) in
      Some (mkSystem (set_pc i t p (tasks sys)) m (world sys))
  | Waiting maxWaitTime p =>
      if decide (p ∈ resolved (mgr sys)) then
        let '(p', m) := withLock_enter i c maxWaitTime (mgr sys) (world sys) in
        Some (mkSystem (set_pc i t p' (tasks sys)) m (world sys))
      else None
  | Running s =>
      let '(r, w) := op_resume c s (world sys) in
      Some (mkSystem (set_pc i t (after_resume r) (tasks sys)) (mgr sys) w)
  | Settled r =>
      Some (mkSystem (set_pc i t (Finished r) (tasks sys))
                     (withLock_finally i c (mgr sys)) (world sys))
  | Finished _ => None
  end.

(** One event; [None] when the event cannot happen: the call does not exist,
    has already finished or awaits a promise that is not resolved, the timer
    is not set (never set, run already, or cleared) or not due yet. *)
Definition step (sys : System) (e : event) : option System :=
  match e with
  | Tick ms =>
      Some (mkSystem (tasks sys) (mgr sys) (snd (sleep ms (world sys))))
  | Resume i =>
      match tasks sys !! i with
      | Some t => withLock_resume i t sys
      | None => None
      end
  | Timeout i =>
      match tasks sys !! i, armed (mgr sys) !! i with
      | Some t, Some due =>
          if due <=? now (world sys) then
            Some (mkSystem (tasks sys) (withLock_onTimeout i (t_call t) (mgr sys))
                           (world sys))
          else None
      | _, _ => None
      end
  end.

(** A schedule: the events of one run of the event loop, in order. *)
Fixpoint exec (sys : System) (es : list event) : option System :=
  match es with
  | [] => Some sys
  | e :: es' =>
      match step sys e with
      | Some sys' => exec sys' es'
      | None => None
      end
  end.

Definition noLocks : LockManager := mkLockManager ∅ ∅ ∅ ∅.

(** The calls [cs] made on a fresh manager, none of them started yet. *)
Definition start (cs : list Call) (w : World) : System :=
  mkSystem (map (fun c => mkTask c NotCalled) cs) noLocks w.

(** The closure a call stands for, in direct style. *)
Definition operation (lat : Latency) (c : Call) : M UserPoint :=
  match c_type c with
  | CHARGE => chargePoint_operation lat (c_userId c) (c_amount c)
  | USE => usePoint_operation lat (c_userId c) (c_amount c)
  end.

(** The history entry a successful mutation appends to log [log]. *)
Definition appended (log : list PointHistory) (userId amount : Z)
  (type : TransactionType) (timeMillis : Z) : PointHistory :=
  mkPointHistory (Z.of_nat (length log) + 1) userId amount type timeMillis.

(** Empty tables at time 0, and user 1 with a balance of 1000. *)
Definition w0 : World := mkWorld ∅ [] 0.
Definition w1000 : World := mkWorld {[1 := mkUserPoint 1 1000 0]} [] 0.

(** User 1 with a balance of 1, and with a balance of 2^53 + 2. *)
Definition w_one : World := mkWorld {[1 := mkUserPoint 1 1 0]} [] 0.
Definition w_large : World := mkWorld {[1 := mkUserPoint 1 9007199254740994 0]} [] 0.

(** The comparator [getPointHistories] sorts with. *)
Definition newestFirst (a b : PointHistory) : Z :=
  js_sub (ph_timeMillis b) (ph_timeMillis a).

(** [a] may stand before [b] in a list sorted newest first. *)
Definition newer_or_same (a b : PointHistory) : Prop :=
  ph_timeMillis b <= ph_timeMillis a.

(** The order claimed for entries of one timestamp: whenever [b] was logged
    after [a] and both are listed, [b] is listed before [a]. *)
Definition ties_newest_first (log hs : list PointHistory) : Prop :=
  forall (i j : nat) (a b : PointHistory),
    log !! i = Some a -> log !! j = Some b -> (i < j)%nat ->
    ph_timeMillis a = ph_timeMillis b ->
    a ∈ hs -> b ∈ hs ->
    exists i' j' : nat, hs !! i' = Some a /\ hs !! j' = Some b /\ (j' < i')%nat.

(** The world after a charge of 100 and a use of 30 by user 1 on tables that
    answer within the millisecond. *)
Definition w_tie : World :=
  snd (usePoint_operation (mkLatency 0 0 0) 1 30
         (snd (chargePoint_operation (mkLatency 0 0 0) 1 100 w0))).

(** ** Vocabulary for the properties of the event loop *)

(** A call is in its critical section: it has taken the lock and has not yet
    run its [finally] block. *)
Definition holding (p : pc) : Prop :=
  match p with
  | Running _ | Settled _ => True
  | _ => False
  end.

(** A call is at the head of the [while] loop with deadline [maxWaitTime]:
    it is being made right now, or the promise it awaited is resolved. *)
Definition loop_head (c : Call) (p : pc) (m : LockManager) (w : World)
  (maxWaitTime : Z) : Prop :=
  match p with
  | NotCalled => maxWaitTime = js_add (now w) (c_timeoutMs c)
  | Waiting maxWaitTime' p' => maxWaitTime = maxWaitTime' /\ p' ∈ resolved m
  | _ => False
  end.

(** The moves of one call, as a relation: [withLock_resume] computes exactly
    these. *)
Inductive move (i : nat) (c : Call)
  : pc -> LockManager -> World -> pc -> LockManager -> World -> Prop :=
| move_give_up p m w maxWaitTime holder :
    loop_head c p m w maxWaitTime ->
    locks m !! c_key c = Some holder ->
    maxWaitTime < now w ->
    move i c p m w (Finished (inl (lock_timeout (c_key c)))) m w
| move_wait p m w maxWaitTime holder :
    loop_head c p m w maxWaitTime ->
    locks m !! c_key c = Some holder ->
    now w <= maxWaitTime ->
    move i c p m w (Waiting maxWaitTime holder) m w
| move_acquire p m w maxWaitTime :
    loop_head c p m w maxWaitTime ->
    locks m !! c_key c = None ->
    move i c p m w (after_call c) (acquired i c (now w) m) w
| move_op s m w r w' :
    op_resume c s w = (r, w') ->
    move i c (Running s) m w (after_resume r) m w'
| move_finally r m w :
    move i c (Settled r) m w (Finished r) (withLock_finally i c m) w.

(** What keeps a balance from going negative while a call is in flight: a
    closure past its validation has a positive amount, and the balance a
    closure is about to write is not negative. *)
Definition safe_pc (c : Call) (p : pc) : Prop :=
  match p with
  | Running AwaitSelect => 0 < c_amount c
  | Running (AwaitUpdate newPoint _) => 0 <= newPoint
  | _ => True
  end.

Definition nonneg_inv (userId : Z) (sys : System) : Prop :=
  0 <= balance (world sys) userId
  /\ forall (i : nat) (t : Task),
       tasks sys !! i = Some t -> c_userId (t_call t) = userId ->
       safe_pc (t_call t) (t_pc t).

(** What a call adds to the balance of its user once it has gone through. *)
Definition delta (c : Call) : Z :=
  match c_type c with
  | CHARGE => c_amount c
  | USE => - c_amount c
  end.

(** What a call has added to the stored balance so far: its [delta] from the
    moment its [insertOrUpdate] took effect. *)
Definition committed (c : Call) (p : pc) : Z :=
  match p with
  | Running (AwaitInsert _ _) | Settled (inr _) | Finished (inr _) => delta c
  | _ => 0
  end.

Definition on_user (userId : Z) (c : Call) (x : Z) : Z :=
  if decide (c_userId c = userId) then x else 0.

Definition committed_total (userId : Z) (ts : list Task) : Z :=
  foldr (fun t acc => on_user userId (t_call t) (committed (t_call t) (t_pc t)) + acc) 0 ts.

(** The sum of the charges minus the sum of the uses asked for one user. *)
Definition requested_total (userId : Z) (cs : list Call) : Z :=
  foldr (fun c acc => on_user userId c (delta c) + acc) 0 cs.

(** The call returned a balance to its caller. *)
Definition accepted (t : Task) : Prop := exists v, t_pc t = Finished (inr v).

(** The call locks on the key of its own user, as [chargePoint] and
    [usePoint] do. *)
Definition service_call (c : Call) : Prop := c_key c = userKey (c_userId c).

(** No hold-timeout timer runs. *)
Definition no_timeout (es : list event) : Prop := forall i, Timeout i ∉ es.

(** The amounts asked for one user, of either kind: the room the balance of
    the user must have for every sum to be exact. *)
Definition requested_volume (userId : Z) (cs : list Call) : Z :=
  foldr (fun c acc => on_user userId c (Z.abs (c_amount c)) + acc) 0 cs.

(** In a run without hold-timeouts every call in its critical section is the
    one the lock table names for its key. *)
Definition mutex_inv (sys : System) : Prop :=
  (forall (i : nat) (t : Task), tasks sys !! i = Some t -> service_call (t_call t))
  /\ (forall (i : nat) (t : Task),
        tasks sys !! i = Some t -> holding (t_pc t) ->
        locks (mgr sys) !! c_key (t_call t) = Some i).

(** The invariant of a run without hold-timeouts whose sums stay safe
    integers: the lock table names the calls in their critical sections; the
    initial balance and the amounts asked for the user fit below
    [MAX_SAFE_INTEGER]; the stored balance of the user is the initial one
    plus what the calls have committed; and the balance a call is about to
    write was computed from the balance that is stored now. *)
Definition serial_inv (w : World) (userId : Z) (sys : System) : Prop :=
  mutex_inv sys
  /\ Z.abs (balance w userId) + requested_volume userId (map t_call (tasks sys))
     <= MAX_SAFE_INTEGER
  /\ balance (world sys) userId = balance w userId + committed_total userId (tasks sys)
  /\ (forall (i : nat) (t : Task) (newPoint updateTime : Z),
        tasks sys !! i = Some t -> c_userId (t_call t) = userId ->
        t_pc t = Running (AwaitUpdate newPoint updateTime) ->
        newPoint = balance (world sys) userId + delta (t_call t)).

(** Charges of 2^53 - 1, 1 and 1 by user 1, served one after the other. *)
Definition large_charges : list Call :=
  [chargePoint 1 9007199254740991; chargePoint 1 1; chargePoint 1 1].

(** ** Scenarios *)

(** Two charges of user 1 whose first holds the lock past its hold-timeout:
    the table is slow to take the first write. *)
Definition lost_update_schedule : list event :=
  [ Resume 0%nat; Resume 1%nat;          (* 0 takes the lock, 1 waits for it *)
    Tick 100; Resume 0%nat;              (* 0 reads balance 0 *)
    Tick 4900; Timeout 0%nat;            (* the hold-timeout of 0 frees the key *)
    Resume 1%nat;                        (* 1 takes the lock *)
    Tick 100; Resume 1%nat;              (* 1 reads balance 0 as well *)
    Tick 100; Resume 0%nat;              (* 0 writes 1000 *)
    Tick 100; Resume 1%nat;              (* 1 writes 500 *)
    Resume 0%nat; Resume 0%nat;          (* 0 logs its charge and returns *)
    Resume 1%nat; Resume 1%nat ].        (* 1 logs its charge and returns *)

(** One call running undisturbed; each table call takes a second. *)
Definition one_call (i : nat) : list event :=
  [ Tick 1000; Resume i; Tick 1000; Resume i; Tick 1000; Resume i; Resume i ].

(** Three charges of user 1 made together and served one after the other. *)
Definition three_charges : list Call :=
  [chargePoint 1 1000; chargePoint 1 500; chargePoint 1 300].

Definition queue_schedule : list event :=
  [ Resume 0%nat; Resume 1%nat; Resume 2%nat ]
  ++ one_call 0 ++ [ Resume 1%nat; Resume 2%nat ]
  ++ one_call 1 ++ [ Resume 2%nat ]
  ++ one_call 2.

(** The same queue up to the moment call 1 has released the key, six seconds
    after call 2 began to wait for it. *)
Definition late_schedule : list event :=
  [ Resume 0%nat; Resume 1%nat; Resume 2%nat ]
  ++ one_call 0 ++ [ Resume 1%nat; Resume 2%nat ]
  ++ one_call 1.

(** Four charges: call 2 has taken the key at second six, call 3, waiting
    since second zero, is about to look at it again. *)
Definition four_charges : list Call := three_charges ++ [chargePoint 1 200].

Definition crowded_schedule : list event :=
  [ Resume 0%nat; Resume 1%nat; Resume 2%nat; Resume 3%nat ]
  ++ one_call 0 ++ [ Resume 1%nat; Resume 2%nat; Resume 3%nat ]
  ++ one_call 1 ++ [ Resume 2%nat ].

(** Two charges: the hold-timeout of call 0 has run, call 1 has taken the
    key, and the closure of call 0 has just settled. *)
Definition evict_schedule : list event :=
  [ Resume 0%nat; Resume 1%nat;
    Tick 100; Resume 0%nat;
    Tick 4900; Timeout 0%nat;
    Resume 1%nat;
    Tick 100; Resume 0%nat;
    Tick 100; Resume 0%nat ].

(** The schedule of a call that runs alone. *)
Definition alone_schedule (lat : Latency) (c : Call) (w : World) : list event :=
  if c_amount c <=? 0 then [ Resume 0%nat; Resume 0%nat ]
  else
    match c_type c with
    | USE =>
        if balance w (c_userId c) <? c_amount c
        then [ Resume 0%nat; Tick (selectMs lat); Resume 0%nat; Resume 0%nat ]
        else [ Resume 0%nat; Tick (selectMs lat); Resume 0%nat;
               Tick (updateMs lat); Resume 0%nat;
               Tick (insertMs lat); Resume 0%nat; Resume 0%nat ]
    | CHARGE =>
        [ Resume 0%nat; Tick (selectMs lat); Resume 0%nat;
          Tick (updateMs lat); Resume 0%nat;
          Tick (insertMs lat); Resume 0%nat; Resume 0%nat ]
    end.

(** The call that gave up waiting for its key. *)
Definition timed_out (c : Call) : Task :=
  mkTask c (Finished (inl (lock_timeout (c_key c)))).

(** ** Vocabulary for the properties that hold under every schedule *)

(** The call has returned or thrown. *)
Definition finished (t : Task) : Prop := exists r, t_pc t = Finished r.

(** What the manager's maps and timers say about the calls, hold-timeouts
    or not: a lock entry names a call that is in its critical section on that
    key, whose timer is registered and set; a registered timer belongs to a
    call in its critical section on that key; and a timer that is set belongs
    to the call the lock table names for its key, and is due no later than
    the delay of its [setTimeout] from now. *)
Definition lock_inv (sys : System) : Prop :=
  (forall (k : string) (i : nat),
     locks (mgr sys) !! k = Some i ->
     exists t, tasks sys !! i = Some t /\ c_key (t_call t) = k /\ holding (t_pc t)
               /\ timeouts (mgr sys) !! k = Some i
               /\ is_Some (armed (mgr sys) !! i))
  /\ (forall (k : string) (i : nat),
        timeouts (mgr sys) !! k = Some i ->
        exists t, tasks sys !! i = Some t /\ c_key (t_call t) = k /\ holding (t_pc t))
  /\ (forall (i : nat) (due : Z),
        armed (mgr sys) !! i = Some due ->
        exists t, tasks sys !! i = Some t
                  /\ locks (mgr sys) !! c_key (t_call t) = Some i
                  /\ due <= now (world sys) + setTimeout_delay (c_timeoutMs (t_call t))).

(** Two charges by two users. *)
Definition two_users : list Call := [chargePoint 1 1000; chargePoint 2 2000].

(** Call 0 of two charges of user 1 has held the key for five seconds, its
    write still pending; call 1 waits. *)
Definition overdue_schedule : list event :=
  [ Resume 0%nat; Resume 1%nat; Tick 100; Resume 0%nat; Tick 4900 ].

(** How a call may stand, given its arguments: a closure runs only on a
    positive amount; a balance is returned only for a positive amount and
    carries the id of the user; a closure throws the invalid-amount error on
    an amount that is not positive, or, a use only, the insufficient-balance
    error; [withLock] itself adds the lock-timeout error of the key. *)
Definition outcome_ok (c : Call) (p : pc) : Prop :=
  match p with
  | NotCalled | Waiting _ _ => True
  | Running _ => 0 < c_amount c
  | Settled (inr v) | Finished (inr v) => 0 < c_amount c /\ up_id v = c_userId c
  | Settled (inl e) =>
      (c_amount c <= 0 /\ e = InvalidAmount (c_type c))
      \/ (0 < c_amount c /\ c_type c = USE /\ e = InsufficientBalance)
  | Finished (inl e) =>
      (c_amount c <= 0 /\ e = InvalidAmount (c_type c))
      \/ (0 < c_amount c /\ c_type c = USE /\ e = InsufficientBalance)
      \/ e = lock_timeout (c_key c)
  end.

(** What a history entry records: user, amount, kind and time. *)
Definition entry_sig (h : PointHistory) : Z * Z * TransactionType * Z :=
  (ph_userId h, ph_amount h, ph_type h, ph_timeMillis h).

(** What the history should hold for a call: once its closure has returned a
    balance, one entry with the call's user, amount and kind and the time of
    the returned balance; nothing before that and nothing for a call that
    was rejected. *)
Definition logged (c : Call) (p : pc) : list (Z * Z * TransactionType * Z) :=
  match p with
  | Settled (inr v) | Finished (inr v) =>
      [(c_userId c, c_amount c, c_type c, up_updateMillis v)]
  | _ => []
  end.

Definition logged_calls (ts : list Task) : list (Z * Z * TransactionType * Z) :=
  foldr (fun t acc => logged (t_call t) (t_pc t) ++ acc) [] ts.

(** A balance that is about to be written, or was returned, is not
    negative. *)
Definition returned_ok (c : Call) (p : pc) : Prop :=
  match p with
  | Running (AwaitInsert newPoint _) => 0 <= newPoint
  | Settled (inr v) | Finished (inr v) => 0 <= up_point v
  | _ => safe_pc c p
  end.

Definition returned_inv (userId : Z) (sys : System) : Prop :=
  0 <= balance (world sys) userId
  /\ forall (i : nat) (t : Task),
       tasks sys !! i = Some t -> c_userId (t_call t) = userId ->
       returned_ok (t_call t) (t_pc t).

(** * Properties of the numbers *)

Lemma toDouble_exact (x : Z) : Z.abs x <= 2 ^ 53 -> toDouble x = x.
Proof. unfold toDouble. intros H. destruct (Z.abs x <=? 2 ^ 53) eqn:E; [done|lia]. Qed.

Lemma toDouble_safe (x : Z) : isSafeInteger x -> toDouble x = x.
Proof. unfold isSafeInteger, MAX_SAFE_INTEGER. intros H. apply toDouble_exact. lia. Qed.

Lemma toDouble_opp (x : Z) : toDouble (- x) = - toDouble x.
Proof.
  unfold toDouble. rewrite Z.abs_opp, Z.sgn_opp.
  destruct (Z.abs x <=? 2 ^ 53); [done|]. lia.
Qed.

(** Rounding never takes a number beyond 2^53 back below it. *)
Lemma toDouble_large (x : Z) : 2 ^ 53 < x -> 2 ^ 53 <= toDouble x.
Proof.
  intros Hx. unfold toDouble.
  rewrite (Z.abs_eq x) by lia. rewrite (Z.sgn_pos x) by lia.
  destruct (x <=? 2 ^ 53) eqn:E; [lia|]. clear E.
  assert (53 <= Z.log2 x) as Hlog.
  { rewrite <- (Z.log2_pow2 53) by lia. apply Z.log2_le_mono. lia. }
  set (e := Z.log2 x - 52). assert (1 <= e) as He by lia.
  assert (2 ^ e * 2 ^ 52 <= x) as Hlow.
  { rewrite <- Z.pow_add_r by lia. replace (e + 52) with (Z.log2 x) by lia.
    apply Z.log2_spec. lia. }
  assert (2 <= 2 ^ e) as H2e.
  { change 2 with (2 ^ 1) at 1. apply Z.pow_le_mono_r; lia. }
  assert (2 ^ 52 <= x / 2 ^ e) as Hq.
  { apply Z.div_le_lower_bound; lia. }
  destruct (_ || _); nia.
Qed.

Lemma toDouble_nonneg (x : Z) : 0 <= x -> 0 <= toDouble x.
Proof.
  intros Hx. destruct (Z.le_gt_cases x (2 ^ 53)) as [Hs|Hl].
  - rewrite toDouble_exact; lia.
  - pose proof (toDouble_large x Hl). lia.
Qed.

(** Rounding keeps the sign. *)
Lemma toDouble_sign (x : Z) : toDouble x <= 0 <-> x <= 0.
Proof.
  split.
  - intros H. destruct (Z.le_gt_cases x 0) as [|Hpos]; [done|].
    destruct (Z.le_gt_cases x (2 ^ 53)) as [Hs|Hl].
    + rewrite toDouble_exact in H; lia.
    + pose proof (toDouble_large x Hl). lia.
  - intros H. pose proof (toDouble_nonneg (- x)) as Hn.
    rewrite toDouble_opp in Hn. lia.
Qed.

(** A result below 2^53 in magnitude was not rounded. *)
Lemma toDouble_safe_inv (x y : Z) : toDouble x = y -> Z.abs y < 2 ^ 53 -> x = y.
Proof.
  intros <- Hy. destruct (Z.le_gt_cases (Z.abs x) (2 ^ 53)) as [Hs|Hl].
  - by rewrite toDouble_exact.
  - exfalso. destruct (Z.le_gt_cases 0 x).
    + pose proof (toDouble_large x). lia.
    + pose proof (toDouble_large (- x)) as Hn. rewrite toDouble_opp in Hn. lia.
Qed.

(** * Properties of the closures *)

Ltac run_M :=
  unfold operation, chargePoint_operation, usePoint_operation, op_call, op_resume,
    getPointHistories, getUserPoint, await, bind, sleep, selectById, insertOrUpdate,
    insert, selectAllByUserId, Date_now, ret, throw, InvalidAmount,
    InsufficientBalance, appended; simpl.

Lemma balance_default (w : World) (id t : Z) :
  up_point (default (mkUserPoint id 0 t) (userPointTable w !! id)) = balance w id.
Proof. unfold balance. by destruct (userPointTable w !! id). Qed.

Lemma balance_insert (tbl : gmap Z UserPoint) log t (id amount t' : Z) :
  balance (mkWorld (<[id := mkUserPoint id amount t']> tbl) log t) id = amount.
Proof. unfold balance; simpl. by rewrite lookup_insert_eq. Qed.

Lemma balance_insert_ne (tbl : gmap Z UserPoint) log t (id id' amount t' : Z) :
  id <> id' ->
  balance (mkWorld (<[id := mkUserPoint id amount t']> tbl) log t) id'
  = from_option up_point 0 (tbl !! id').
Proof. intros Hne. unfold balance; simpl. by rewrite lookup_insert_ne. Qed.

(** C2, as the code has it. A charge of a positive amount whose sum with the
    stored balance is a safe integer returns the stored balance plus the
    amount, stores that sum for the user, leaves every other user's record
    alone, and appends exactly one CHARGE entry with the user and the
    amount. *)
Theorem chargePoint_adds_and_records (lat : Latency) (userId amount : Z) (w : World) :
  0 < amount ->
  isSafeInteger (balance w userId + amount) ->
  let updateTime := now w + Z.of_N (selectMs lat) in
  let chargedPoint := balance w userId + amount in
  exists w',
    chargePoint_operation lat userId amount w
      = (inr (mkUserPoint userId chargedPoint updateTime), w')
    /\ balance w' userId = chargedPoint
    /\ (forall other, other <> userId ->
          userPointTable w' !! other = userPointTable w !! other)
    /\ pointHistoryTable w'
       = pointHistoryTable w
           ++ [appended (pointHistoryTable w) userId amount CHARGE updateTime].
Proof.
  intros Hpos Hsafe. run_M.
  destruct (amount <=? 0) eqn:E; [lia|].
  rewrite balance_default. unfold js_add. rewrite (toDouble_safe _ Hsafe).
  eexists. split; [reflexivity|].
  split; [apply balance_insert|]. split; [|reflexivity].
  intros other Hne. simpl. by rewrite lookup_insert_ne.
Qed.

(** A fresh user charges 1000. *)
Lemma chargePoint_adds_and_records_witness :
  exists w',
    chargePoint_operation (mkLatency 3 4 5) 1 1000 w0
      = (inr (mkUserPoint 1 1000 3), w')
    /\ balance w' 1 = 1000
    /\ (forall other, other <> 1 ->
          userPointTable w' !! other = userPointTable w0 !! other)
    /\ pointHistoryTable w' = [mkPointHistory 1 1 1000 CHARGE 3].
Proof.
  apply (chargePoint_adds_and_records (mkLatency 3 4 5) 1 1000 w0); [lia|].
  vm_compute. split; discriminate.
Defined.

(** C2, counterexample. User 1 has a balance of 1 and charges 2^53: the
    double nearest to the sum is 2^53, and that, not the balance plus the
    amount, is returned and stored. *)
Lemma charge_past_safe_integers_is_rounded :
  exists r w',
    chargePoint_operation (mkLatency 3 4 5) 1 9007199254740992 w_one = (inr r, w')
    /\ up_point r = 9007199254740992
    /\ balance w' 1 = 9007199254740992
    /\ balance w_one 1 + 9007199254740992 = 9007199254740993.
Proof.
  eexists. eexists. split; [vm_compute; reflexivity|].
  split; [reflexivity|]. split; reflexivity.
Qed.

(** C3, as the code has it. A use of a positive amount is rejected for
    insufficient balance when the stored balance is below the amount, and
    then neither table changes; otherwise, when the stored balance is a safe
    integer, it stores the balance minus the amount, appends exactly one USE
    entry with the amount, and returns the new balance. *)
Theorem usePoint_guards_balance (lat : Latency) (userId amount : Z) (w : World) :
  0 < amount ->
  let updateTime := now w + Z.of_N (selectMs lat) in
  let usedPoint := balance w userId - amount in
  exists w',
    (balance w userId < amount ->
       usePoint_operation lat userId amount w = (inl InsufficientBalance, w')
       /\ userPointTable w' = userPointTable w
       /\ pointHistoryTable w' = pointHistoryTable w)
    /\ (amount <= balance w userId ->
         balance w userId <= MAX_SAFE_INTEGER ->
         usePoint_operation lat userId amount w
           = (inr (mkUserPoint userId usedPoint updateTime), w')
         /\ balance w' userId = usedPoint
         /\ (forall other, other <> userId ->
               userPointTable w' !! other = userPointTable w !! other)
         /\ pointHistoryTable w'
            = pointHistoryTable w
                ++ [appended (pointHistoryTable w) userId amount USE updateTime]).
Proof.
  intros Hpos. run_M.
  destruct (amount <=? 0) eqn:E; [lia|]. clear E.
  rewrite balance_default.
  destruct (balance w userId <? amount) eqn:E.
  - eexists. split; [intros _; done|]. lia.
  - destruct (decide (balance w userId <= MAX_SAFE_INTEGER)) as [Hsafe|Hbig].
    + unfold js_sub. rewrite toDouble_safe
        by (unfold isSafeInteger, MAX_SAFE_INTEGER in *; lia).
      eexists. split; [lia|]. intros _ _.
      split; [reflexivity|]. split; [apply balance_insert|]. split; [|reflexivity].
      intros other Hne. simpl. by rewrite lookup_insert_ne.
    + exists w. split; [lia|]. intros _ Hsafe. by destruct Hbig.
Qed.

(** User 1 has 1000 and uses 300: 700 is returned and stored, one USE entry
    is logged. *)
Lemma usePoint_guards_balance_witness :
  exists w',
    usePoint_operation (mkLatency 3 4 5) 1 300 w1000 = (inr (mkUserPoint 1 700 3), w')
    /\ balance w' 1 = 700
    /\ pointHistoryTable w' = [mkPointHistory 1 1 300 USE 3].
Proof.
  destruct (usePoint_guards_balance (mkLatency 3 4 5) 1 300 w1000) as (w' & _ & Hok);
    [lia|].
  exists w'.
  destruct Hok as (Hret & Hbal & _ & Hlog); [vm_compute; discriminate ..|].
  split; [exact Hret|]. split; [exact Hbal|exact Hlog].
Defined.

(** C3, counterexample. User 1 has a balance of 2^53 + 2 and uses 1: the
    use is accepted, and the double nearest to the difference, 2^53, is
    returned and stored, not the balance minus the amount. *)
Lemma use_past_safe_integers_is_rounded :
  exists r w',
    usePoint_operation (mkLatency 3 4 5) 1 1 w_large = (inr r, w')
    /\ up_point r = 9007199254740992
    /\ balance w' 1 = 9007199254740992
    /\ balance w_large 1 - 1 = 9007199254740993.
Proof.
  eexists. eexists. split; [vm_compute; reflexivity|].
  split; [reflexivity|]. split; reflexivity.
Qed.

(** C4. A charge or a use of an amount that is not positive is rejected as an
    invalid amount, and the world it ran in is left as it was: no balance is
    written and no history entry is appended. *)
Theorem nonpositive_amount_rejected (lat : Latency) (userId amount : Z) (w : World) :
  amount <= 0 ->
  chargePoint_operation lat userId amount w = (inl (InvalidAmount CHARGE), w)
  /\ usePoint_operation lat userId amount w = (inl (InvalidAmount USE), w).
Proof.
  intros Hle. run_M. destruct (amount <=? 0) eqn:E; [done|lia].
Qed.

(** Amount 0 is rejected by both. *)
Lemma nonpositive_amount_rejected_witness :
  chargePoint_operation (mkLatency 3 4 5) 1 0 w0 = (inl (InvalidAmount CHARGE), w0)
  /\ usePoint_operation (mkLatency 3 4 5) 1 0 w0 = (inl (InvalidAmount USE), w0).
Proof.
  apply (nonpositive_amount_rejected (mkLatency 3 4 5) 1 0 w0). lia.
Defined.

(** C10. When a charge or a use succeeds, the one entry it appended to the
    history carries the very timestamp of the balance it returns. *)
Theorem returned_time_is_history_time (lat : Latency) (userId amount : Z)
  (w w' : World) (r : UserPoint) :
  chargePoint_operation lat userId amount w = (inr r, w')
  \/ usePoint_operation lat userId amount w = (inr r, w') ->
  exists h,
    pointHistoryTable w' = pointHistoryTable w ++ [h]
    /\ ph_timeMillis h = up_updateMillis r
    /\ ph_userId h = userId /\ ph_amount h = amount.
Proof.
  run_M. destruct (amount <=? 0); [by intros [|]|].
  intros [H|H]; revert H.
  - intros [= <- <-]. eexists. by split.
  - destruct (up_point _ <? amount); [done|].
    intros [= <- <-]. eexists. by split.
Qed.

(** A charge of 1000 whose select takes 3 ms: returned at 3, logged at 3. *)
Lemma returned_time_is_history_time_witness :
  exists h,
    pointHistoryTable (snd (chargePoint_operation (mkLatency 3 4 5) 1 1000 w0))
      = pointHistoryTable w0 ++ [h]
    /\ ph_timeMillis h = 3
    /\ ph_userId h = 1 /\ ph_amount h = 1000.
Proof.
  exact (returned_time_is_history_time (mkLatency 3 4 5) 1 1000 w0
           _ (mkUserPoint 1 1000 3) (or_introl eq_refl)).
Defined.

(** * Properties of [getPointHistories] *)

Section Array_sort_facts.
Context {A : Type} (comparefn : A -> A -> Z).

Lemma sort_insert_perm (a : A) (l : list A) :
  Permutation (sort_insert comparefn a l) (a :: l).
Proof.
  induction l as [|b l IH]; simpl; [done|].
  destruct (comparefn a b <=? 0); [done|].
  rewrite IH. apply perm_swap.
Qed.

Lemma Array_sort_perm (l : list A) : Permutation (Array_sort comparefn l) l.
Proof.
  induction l as [|a l IH]; simpl; [done|].
  rewrite sort_insert_perm. by constructor.
Qed.

(** Inserting never moves an element across another one that the predicate
    [P] keeps, as long as [P] only keeps elements the comparator ties. *)
Lemma sort_insert_filter (P : A -> Prop) `{!forall x, Decision (P x)} (a : A) (l : list A) :
  (forall x y, P x -> P y -> comparefn x y <= 0) ->
  filter P (sort_insert comparefn a l) = filter P (a :: l).
Proof.
  intros Htie. induction l as [|b l IH]; simpl; [done|].
  destruct (comparefn a b <=? 0) eqn:E; [done|].
  rewrite filter_cons, IH, !filter_cons.
  destruct (decide (P b)) as [Hb|Hb]; destruct (decide (P a)) as [Ha|Ha]; try done.
  specialize (Htie a b Ha Hb). lia.
Qed.

Lemma Array_sort_filter (P : A -> Prop) `{!forall x, Decision (P x)} (l : list A) :
  (forall x y, P x -> P y -> comparefn x y <= 0) ->
  filter P (Array_sort comparefn l) = filter P l.
Proof.
  intros Htie. induction l as [|a l IH]; simpl; [done|].
  rewrite sort_insert_filter by done. by rewrite !filter_cons, IH.
Qed.
End Array_sort_facts.

(** The comparator is not positive exactly when [a] is as new as [b]: the
    subtraction may round, but it keeps its sign. *)
Lemma newestFirst_sign (a b : PointHistory) :
  newestFirst a b <= 0 <-> newer_or_same a b.
Proof.
  unfold newestFirst, js_sub, newer_or_same. rewrite toDouble_sign. lia.
Qed.

Lemma sort_insert_newestFirst_sorted (a : PointHistory) (l : list PointHistory) :
  StronglySorted newer_or_same l ->
  StronglySorted newer_or_same (sort_insert newestFirst a l).
Proof.
  induction 1 as [|b l Hl IH Hb]; simpl.
  - repeat constructor.
  - pose proof (newestFirst_sign a b) as Hsign. unfold newer_or_same in Hsign.
    destruct (_ <=? 0) eqn:E.
    + constructor; [by constructor|].
      constructor; [unfold newer_or_same; lia|].
      eapply Forall_impl; [exact Hb|]. unfold newer_or_same. intros; lia.
    + constructor; [done|].
      rewrite sort_insert_perm. constructor; [unfold newer_or_same; lia|done].
Qed.

Lemma Array_sort_newestFirst_sorted (l : list PointHistory) :
  StronglySorted newer_or_same (Array_sort newestFirst l).
Proof.
  induction l as [|a l IH]; simpl; [constructor|].
  by apply sort_insert_newestFirst_sorted.
Qed.

(** C6, as the code has it. The history of a user is exactly the entries the
    log holds for that user, newest timestamp first; entries that share a
    timestamp stay in the order of the log, the one inserted first ahead. *)
Theorem getPointHistories_sorted_stable (userId : Z) (w : World) :
  exists hs,
    getPointHistories userId w = (inr hs, w)
    /\ Permutation hs (filter (fun h => ph_userId h = userId) (pointHistoryTable w))
    /\ StronglySorted newer_or_same hs
    /\ forall t,
         filter (fun h => ph_timeMillis h = t) hs
         = filter (fun h => ph_timeMillis h = t)
             (filter (fun h => ph_userId h = userId) (pointHistoryTable w)).
Proof.
  eexists. split; [reflexivity|].
  split; [apply Array_sort_perm|].
  split; [apply Array_sort_newestFirst_sorted|].
  intros t. apply Array_sort_filter.
  intros x y Hx Hy. apply newestFirst_sign. unfold newer_or_same. lia.
Qed.

(** C6, counterexample. User 1 charges 100 and uses 30 within one
    millisecond: the history lists the charge, logged first, ahead of the
    use. *)
Lemma getPointHistories_ties_counterexample :
  exists hs,
    getPointHistories 1 w_tie = (inr hs, w_tie)
    /\ hs = [mkPointHistory 1 1 100 CHARGE 0; mkPointHistory 2 1 30 USE 0]
    /\ pointHistoryTable w_tie = hs
    /\ ~ ties_newest_first (pointHistoryTable w_tie) hs.
Proof.
  eexists. split; [reflexivity|]. split; [reflexivity|]. split; [reflexivity|].
  intros H.
  destruct (H 0%nat 1%nat (mkPointHistory 1 1 100 CHARGE 0) (mkPointHistory 2 1 30 USE 0))
    as (i' & j' & Hi & Hj & Hlt); try done.
  - lia.
  - vm_compute. set_solver.
  - vm_compute. set_solver.
  - vm_compute in Hi, Hj.
    destruct i' as [|[|i']]; destruct j' as [|[|j']]; simpl in *; try done; lia.
Qed.

(** * Properties of the event loop *)

Lemma resume_move (i : nat) (t : Task) (sys sys' : System) :
  withLock_resume i t sys = Some sys' ->
  exists p',
    move i (t_call t) (t_pc t) (mgr sys) (world sys) p' (mgr sys') (world sys')
    /\ tasks sys' = set_pc i t p' (tasks sys).
Proof.
  unfold withLock_resume, withLock_enter.
  destruct (t_pc t) as [|maxW p|s|r|r] eqn:Epc.
  - destruct (locks (mgr sys) !! c_key (t_call t)) as [holder|] eqn:El.
    + destruct (now (world sys) >? _) eqn:E; intros [= <-]; simpl;
        eexists; (split; [|reflexivity]).
      * eapply move_give_up; [reflexivity|done|lia].
      * eapply move_wait; [reflexivity|done|lia].
    + intros [= <-]; simpl. eexists. split; [|reflexivity].
      eapply move_acquire; [reflexivity|done].
  - destruct (decide (p ∈ resolved (mgr sys))) as [Hp|]; [|done].
    destruct (locks (mgr sys) !! c_key (t_call t)) as [holder|] eqn:El.
    + destruct (now (world sys) >? _) eqn:E; intros [= <-]; simpl;
        eexists; (split; [|reflexivity]).
      * eapply move_give_up; [by split|done|lia].
      * eapply move_wait; [by split|done|lia].
    + intros [= <-]; simpl. eexists. split; [|reflexivity].
      eapply move_acquire; [by split|done].
  - destruct (op_resume (t_call t) s (world sys)) as [r w'] eqn:Eop.
    intros [= <-]; simpl. exists (after_resume r). split; [|done].
    by apply move_op.
  - intros [= <-]; simpl. eexists. split; [|reflexivity]. apply move_finally.
  - done.
Qed.

(** Every event either leaves the calls and the tables alone, or is one move
    of one call. *)
Lemma step_cases (sys sys' : System) (e : event) :
  step sys e = Some sys' ->
  (tasks sys' = tasks sys
   /\ userPointTable (world sys') = userPointTable (world sys)
   /\ pointHistoryTable (world sys') = pointHistoryTable (world sys)
   /\ match e with Resume _ => False | _ => True end)
  \/ exists i t p',
       e = Resume i /\ tasks sys !! i = Some t
       /\ move i (t_call t) (t_pc t) (mgr sys) (world sys) p' (mgr sys') (world sys')
       /\ tasks sys' = set_pc i t p' (tasks sys).
Proof.
  destruct e as [ms|i|i]; simpl.
  - intros [= <-]. by left.
  - destruct (tasks sys !! i) as [t|] eqn:Et; [|done].
    intros H. apply resume_move in H as (p' & Hm & Hts). right. by exists i, t, p'.
  - destruct (tasks sys !! i); [|done]. destruct (armed (mgr sys) !! i); [|done].
    destruct (_ <=? _); [|done]. intros [= <-]. by left.
Qed.

Lemma set_pc_lookup (i j : nat) (t : Task) (p : pc) (ts : list Task) (t' : Task) :
  ts !! i = Some t ->
  set_pc i t p ts !! j = Some t' ->
  (j = i /\ t' = mkTask (t_call t) p) \/ (j <> i /\ ts !! j = Some t').
Proof.
  intros Hi. unfold set_pc. destruct (decide (j = i)) as [->|Hne].
  - rewrite list_lookup_insert_eq by (by eapply lookup_lt_Some). intros [= <-]. by left.
  - rewrite list_lookup_insert_ne by done. by right.
Qed.

(** The calls themselves never change, only where they are. *)
Lemma step_calls (sys sys' : System) (e : event) :
  step sys e = Some sys' -> map t_call (tasks sys') = map t_call (tasks sys).
Proof.
  intros [(-> & _)|(i & t & p' & _ & Hi & _ & ->)]%step_cases; [done|].
  unfold set_pc. apply list_eq. intros j.
  rewrite !list_lookup_fmap. destruct (decide (j = i)) as [->|Hne].
  - rewrite list_lookup_insert_eq by (by eapply lookup_lt_Some). by rewrite Hi.
  - by rewrite list_lookup_insert_ne.
Qed.

Lemma exec_calls (es : list event) (sys sys' : System) :
  exec sys es = Some sys' -> map t_call (tasks sys') = map t_call (tasks sys).
Proof.
  revert sys. induction es as [|e es IH]; simpl; intros sys.
  - by intros [= <-].
  - destruct (step sys e) as [sys1|] eqn:E; [|done].
    intros H. rewrite (IH _ H). by eapply step_calls.
Qed.

(** ** No balance goes negative *)

Lemma balance_same_table (w w' : World) (userId : Z) :
  userPointTable w' = userPointTable w -> balance w' userId = balance w userId.
Proof. unfold balance. by intros ->. Qed.

Lemma move_safe (userId : Z) (i : nat) (c : Call) p m w p' m' w' :
  move i c p m w p' m' w' ->
  0 <= balance w userId ->
  (c_userId c = userId -> safe_pc c p) ->
  0 <= balance w' userId /\ (c_userId c = userId -> safe_pc c p').
Proof.
  intros Hmove Hbal Hsafe. destruct Hmove as [| |p m w maxW Hhead Hfree|s m w r w' Hop|]; try done.
  - split; [done|]. intros _. unfold after_call, op_call.
    destruct (c_amount c <=? 0) eqn:E; simpl; [done|lia].
  - destruct s as [|newPoint updateTime|newPoint updateTime]; revert Hop; run_M.
    + rewrite balance_default.
      destruct (c_type c); [|destruct (balance w (c_userId c) <? c_amount c) eqn:E];
        intros [= <- <-]; (split; [done|]); intros Hu; specialize (Hsafe Hu);
        simpl in *; subst; try done; apply toDouble_nonneg; lia.
    + intros [= <- <-]. split; [|done].
      destruct (decide (c_userId c = userId)) as [Hu|Hu].
      * subst userId. rewrite balance_insert. by apply Hsafe.
      * by rewrite balance_insert_ne.
    + by intros [= <- <-].
Qed.

Lemma step_nonneg (userId : Z) (sys sys' : System) (e : event) :
  step sys e = Some sys' -> nonneg_inv userId sys -> nonneg_inv userId sys'.
Proof.
  intros [(Hts & Htbl & _)|(i & t & p' & _ & Hi & Hmove & Hts)]%step_cases [Hbal Hsafe].
  - split; [by rewrite (balance_same_table _ _ _ Htbl)|]. by rewrite Hts.
  - destruct (move_safe userId _ _ _ _ _ _ _ _ Hmove Hbal) as [Hbal' Hsafe'].
    { intros Hu. by apply (Hsafe i t). }
    split; [done|]. intros j t'. rewrite Hts.
    intros [[-> ->]|[_ Hj]]%(set_pc_lookup _ _ _ _ _ _ Hi); simpl; [done|].
    by apply (Hsafe j).
Qed.

Lemma exec_nonneg (userId : Z) (es : list event) (sys sys' : System) :
  exec sys es = Some sys' -> nonneg_inv userId sys -> nonneg_inv userId sys'.
Proof.
  revert sys. induction es as [|e es IH]; simpl; intros sys.
  - by intros [= <-].
  - destruct (step sys e) as [sys1|] eqn:E; [|done].
    intros H Hinv. apply (IH _ H). by eapply step_nonneg.
Qed.

Lemma start_lookup (cs : list Call) (w : World) (i : nat) (t : Task) :
  tasks (start cs w) !! i = Some t -> t_pc t = NotCalled /\ cs !! i = Some (t_call t).
Proof.
  unfold start; simpl. rewrite list_lookup_fmap.
  destruct (cs !! i); simpl; [|done]. by intros [= <-].
Qed.

(** C5. Whatever calls are made and however the event loop interleaves them,
    their timers included, a user whose stored balance is not negative at the
    start has a stored balance that is not negative in every state the
    system reaches. *)
Theorem balance_never_negative (cs : list Call) (w : World) (es : list event)
  (sys : System) (userId : Z) :
  0 <= balance w userId ->
  exec (start cs w) es = Some sys ->
  0 <= balance (world sys) userId.
Proof.
  intros Hbal Hexec. eapply exec_nonneg; [exact Hexec|].
  split; [done|]. intros i t [-> _]%start_lookup _. done.
Qed.

(** ** Without hold-timeouts, the calls on one user add up *)

Lemma committed_total_set_pc (userId : Z) (i : nat) (t : Task) (p : pc) (ts : list Task) :
  ts !! i = Some t ->
  committed_total userId (set_pc i t p ts)
  = committed_total userId ts
    - on_user userId (t_call t) (committed (t_call t) (t_pc t))
    + on_user userId (t_call t) (committed (t_call t) p).
Proof.
  unfold set_pc. revert i. induction ts as [|t0 ts IH]; intros [|i]; simpl; try done.
  - intros [= ->]. lia.
  - intros Hi. rewrite (IH _ Hi). lia.
Qed.

Lemma committed_total_accepted (userId : Z) (ts : list Task) :
  Forall accepted ts ->
  committed_total userId ts = requested_total userId (map t_call ts).
Proof.
  induction 1 as [|t ts [v Hv] _ IH]; simpl; [done|].
  by rewrite Hv, IH.
Qed.

(** What the calls of a user have committed, together with one call of that
    user that has not committed yet, stays within the amounts asked for the
    user. *)
Lemma committed_total_bound (userId : Z) (i : nat) (t : Task) (ts : list Task) :
  ts !! i = Some t ->
  committed (t_call t) (t_pc t) = 0 ->
  Z.abs (committed_total userId ts + on_user userId (t_call t) (delta (t_call t)))
  <= requested_volume userId (map t_call ts).
Proof.
  assert (forall c p, Z.abs (on_user userId c (committed c p))
                      <= on_user userId c (Z.abs (c_amount c))) as Hone.
  { intros c p. unfold on_user, committed, delta.
    destruct (decide _); [|lia].
    destruct p as [| |[| |]|[|]|[|]]; destruct (c_type c); lia. }
  assert (forall l, Z.abs (committed_total userId l)
                    <= requested_volume userId (map t_call l)) as Hall.
  { induction l as [|t0 l IH]; simpl; [lia|]. specialize (Hone (t_call t0) (t_pc t0)). lia. }
  revert i. induction ts as [|t0 ts IH]; intros [|i]; simpl; try done.
  - intros [= ->] Hzero. rewrite Hzero. specialize (Hall ts).
    unfold on_user, delta. destruct (decide _); destruct (c_type (t_call t)); lia.
  - intros Hi Hzero. specialize (IH _ Hi Hzero).
    specialize (Hone (t_call t0) (t_pc t0)). lia.
Qed.

Lemma requested_volume_set_pc (userId : Z) (i : nat) (t : Task) (p : pc) (ts : list Task) :
  ts !! i = Some t ->
  map t_call (set_pc i t p ts) = map t_call ts.
Proof.
  intros Hi. unfold set_pc. apply list_eq. intros j.
  change (map t_call) with (fmap (M:=list) t_call).
  rewrite !list_lookup_fmap. destruct (decide (j = i)) as [->|Hne].
  - rewrite list_lookup_insert_eq by (by eapply lookup_lt_Some). by rewrite Hi.
  - by rewrite list_lookup_insert_ne.
Qed.

(** A move either leaves the balances alone and commits nothing new, or it is
    the write of a closure suspended at its [insertOrUpdate].  The balance a
    closure sets out to write is the double nearest to the balance it read
    plus what the call adds. *)
Lemma move_effect (i : nat) (c : Call) p m w p' m' w' :
  move i c p m w p' m' w' ->
  (userPointTable w' = userPointTable w
   /\ committed c p' = committed c p
   /\ forall newPoint updateTime,
        p' = Running (AwaitUpdate newPoint updateTime) ->
        committed c p = 0
        /\ newPoint = toDouble (balance w (c_userId c) + delta c))
  \/ exists newPoint updateTime,
       p = Running (AwaitUpdate newPoint updateTime)
       /\ p' = Running (AwaitInsert newPoint updateTime)
       /\ balance w' (c_userId c) = newPoint
       /\ forall other, other <> c_userId c -> balance w' other = balance w other.
Proof.
  intros [p0 m0 w1 maxW holder Hhead| p0 m0 w1 maxW holder Hhead|p0 m0 w1 maxW Hhead Hfree
         |s m0 w1 r w2 Hop|r m0 w1].
  - left. destruct p0; try done.
  - left. destruct p0; try done.
  - left. split; [done|]. unfold after_call, op_call.
    destruct (c_amount c <=? 0); destruct p0; try done.
  - destruct s as [|newPoint updateTime|newPoint updateTime]; revert Hop; run_M.
    + left. revert Hop. rewrite balance_default. unfold delta, js_add, js_sub.
      destruct (c_type c); [|destruct (balance w1 (c_userId c) <? c_amount c)];
        intros [= <- <-]; simpl; (split; [done|]); (split; [done|]);
        intros ? ? [= <- _]; (split; [done|]); f_equal; lia.
    + right. revert Hop. intros [= <- <-]. exists newPoint, updateTime.
      split; [done|]. split; [done|]. split; [apply balance_insert|].
      intros other Hne. by rewrite balance_insert_ne.
    + left. revert Hop. by intros [= <- <-].
  - left. by destruct r.
Qed.

(** A move keeps the lock table naming the calls in their critical section. *)
Lemma move_mutex (sys : System) (i : nat) (t : Task) p' m' w' :
  tasks sys !! i = Some t ->
  move i (t_call t) (t_pc t) (mgr sys) (world sys) p' m' w' ->
  (forall (j : nat) (t' : Task),
     tasks sys !! j = Some t' -> holding (t_pc t') ->
     locks (mgr sys) !! c_key (t_call t') = Some j) ->
  forall (j : nat) (t' : Task),
    set_pc i t p' (tasks sys) !! j = Some t' -> holding (t_pc t') ->
    locks m' !! c_key (t_call t') = Some j.
Proof.
  intros Hi Hmove Hmx j t' Hj Hhold.
  assert (holding (t_pc t) -> locks (mgr sys) !! c_key (t_call t) = Some i) as Hown
    by apply (Hmx i t Hi).
  apply (set_pc_lookup _ _ _ _ _ _ Hi) in Hj as [[-> ->]|[Hne Hj]]; simpl in *.
  - inversion Hmove; subst; simpl in *; try done.
    + by rewrite lookup_insert_eq.
    + match goal with H : _ = t_pc t |- _ => rewrite <- H in Hown end. by apply Hown.
  - pose proof (Hmx j t' Hj Hhold) as Hjl.
    inversion Hmove; subst; simpl in *; try done.
    + destruct (decide (c_key (t_call t) = c_key (t_call t'))) as [Hk|Hk].
      * rewrite Hk in *. congruence.
      * by rewrite lookup_insert_ne.
    + match goal with H : _ = t_pc t |- _ => rewrite <- H in Hown end.
      destruct (decide (c_key (t_call t) = c_key (t_call t'))) as [Hk|Hk].
      * rewrite Hk in Hown. specialize (Hown I). congruence.
      * by rewrite lookup_delete_ne.
Qed.

Lemma step_mutex (sys sys' : System) (e : event) :
  (forall i, e <> Timeout i) ->
  step sys e = Some sys' ->
  mutex_inv sys -> mutex_inv sys'.
Proof.
  intros Hnt Hstep (Hsvc & Hmx).
  destruct e as [ms|i|i]; [|clear Hnt|by destruct (Hnt i)].
  { revert Hstep. simpl. by intros [= <-]. }
  apply step_cases in Hstep as [(_ & _ & _ & [])|(i' & t & p' & [= <-] & Hi & Hmove & Hts)].
  split.
  - intros j t'. rewrite Hts.
    intros [[-> ->]|[_ Hj]]%(set_pc_lookup _ _ _ _ _ _ Hi); simpl; eauto.
  - rewrite Hts. by eapply move_mutex.
Qed.

Lemma exec_mutex (es : list event) (sys sys' : System) :
  no_timeout es ->
  exec sys es = Some sys' ->
  mutex_inv sys -> mutex_inv sys'.
Proof.
  revert sys. induction es as [|e es IH]; simpl; intros sys Hnt.
  - by intros [= <-].
  - destruct (step sys e) as [sys1|] eqn:E; [|done].
    intros H Hinv. apply (IH sys1); [| done |].
    + intros i Hin. apply (Hnt i). by right.
    + eapply step_mutex; [|exact E|exact Hinv].
      intros i ->. apply (Hnt i). by left.
Qed.

Lemma start_mutex (cs : list Call) (w : World) :
  Forall service_call cs -> mutex_inv (start cs w).
Proof.
  intros Hsvc. split.
  - intros i t [_ Hc]%start_lookup.
    eapply Forall_lookup_1 in Hsvc; [exact Hsvc|exact Hc].
  - by intros i t [-> _]%start_lookup.
Qed.

Lemma step_serial (w : World) (userId : Z) (sys sys' : System) (e : event) :
  (forall i, e <> Timeout i) ->
  step sys e = Some sys' ->
  serial_inv w userId sys -> serial_inv w userId sys'.
Proof.
  intros Hnt Hstep (Hmutex & Hroom & Hbal & Hfresh).
  pose proof (step_mutex _ _ _ Hnt Hstep Hmutex) as Hmutex'.
  split; [exact Hmutex'|]. destruct Hmutex as (Hsvc & Hmx).
  destruct e as [ms|i|i]; [|clear Hnt|by destruct (Hnt i)].
  { revert Hstep. simpl. by intros [= <-]. }
  apply step_cases in Hstep as [(_ & _ & _ & [])|(i' & t & p' & [= <-] & Hi & Hmove & Hts)].
  rewrite Hts, (requested_volume_set_pc userId _ _ _ _ Hi).
  split; [exact Hroom|].
  rewrite (committed_total_set_pc _ _ _ _ _ Hi).
  destruct (move_effect _ _ _ _ _ _ _ _ Hmove)
    as [(Htbl & Hcom & Hnew)|(newPoint & updateTime & Hp & -> & Hwrote & Hothers)].
  - (* the balances are as before *)
    rewrite Hcom, (balance_same_table _ _ _ Htbl).
    split; [lia|].
    intros j t' np ut [[-> ->]|[_ Hj]]%(set_pc_lookup _ _ _ _ _ _ Hi); simpl.
    + intros Hu ->. destruct (Hnew _ _ eq_refl) as [Hzero ->]. rewrite Hu.
      (* the sum the closure computed is a safe integer, hence exact *)
      apply toDouble_safe.
      pose proof (committed_total_bound userId _ _ _ Hi Hzero) as Hbound.
      unfold on_user in Hbound. rewrite decide_True in Hbound by done.
      unfold isSafeInteger. lia.
    + by apply (Hfresh j).
  - (* call [i] writes the balance it computed *)
    simpl. rewrite Hp. simpl. unfold on_user.
    destruct (decide (c_userId (t_call t) = userId)) as [Hu|Hu].
    + subst userId. rewrite Hwrote, (Hfresh i t newPoint updateTime Hi eq_refl Hp).
      split; [lia|].
      intros j t' np ut [[-> ->]|[Hne Hj]]%(set_pc_lookup _ _ _ _ _ _ Hi); simpl; [done|].
      intros Hu' Hpc'. exfalso.
      (* two calls on one user cannot both be in their critical section *)
      assert (locks (mgr sys) !! c_key (t_call t') = Some j) as Hj'
        by (apply (Hmx j t' Hj); by rewrite Hpc').
      assert (locks (mgr sys) !! c_key (t_call t) = Some i) as Hi'
        by (apply (Hmx i t Hi); by rewrite Hp).
      rewrite (Hsvc j t' Hj), Hu', <- (Hsvc i t Hi) in Hj'. congruence.
    + rewrite (Hothers userId) by done. split; [lia|].
      intros j t' np ut [[-> ->]|[Hne Hj]]%(set_pc_lookup _ _ _ _ _ _ Hi); simpl; [done|].
      by apply (Hfresh j).
Qed.

Lemma exec_serial (w : World) (userId : Z) (es : list event) (sys sys' : System) :
  no_timeout es ->
  exec sys es = Some sys' ->
  serial_inv w userId sys -> serial_inv w userId sys'.
Proof.
  revert sys. induction es as [|e es IH]; simpl; intros sys Hnt.
  - by intros [= <-].
  - destruct (step sys e) as [sys1|] eqn:E; [|done].
    intros H Hinv. apply (IH sys1); [| done |].
    + intros i Hin. apply (Hnt i). by right.
    + eapply step_serial; [|exact E|exact Hinv].
      intros i ->. apply (Hnt i). by left.
Qed.

Lemma committed_total_start (userId : Z) (cs : list Call) (w : World) :
  committed_total userId (tasks (start cs w)) = 0.
Proof.
  unfold start; simpl. induction cs as [|c cs IH]; simpl; [done|].
  rewrite IH. unfold on_user. by destruct (decide _).
Qed.

Lemma start_calls (cs : list Call) (w : World) : map t_call (tasks (start cs w)) = cs.
Proof. unfold start; simpl. rewrite map_map; simpl. by rewrite map_id. Qed.

Lemma start_serial (cs : list Call) (w : World) (userId : Z) :
  Forall service_call cs ->
  Z.abs (balance w userId) + requested_volume userId cs <= MAX_SAFE_INTEGER ->
  serial_inv w userId (start cs w).
Proof.
  intros Hsvc Hroom. split; [by apply start_mutex|]. split; [|split].
  - by rewrite start_calls.
  - rewrite committed_total_start. simpl. lia.
  - by intros i t np ut [-> _]%start_lookup.
Qed.

(** X1. Without hold-timeouts no two calls of the service on one key are in
    their critical section at once. *)
Lemma mutual_exclusion (cs : list Call) (w : World) (es : list event) (sys : System)
  (i j : nat) (ti tj : Task) :
  Forall service_call cs ->
  no_timeout es ->
  exec (start cs w) es = Some sys ->
  tasks sys !! i = Some ti -> tasks sys !! j = Some tj ->
  holding (t_pc ti) -> holding (t_pc tj) ->
  c_key (t_call ti) = c_key (t_call tj) ->
  i = j.
Proof.
  intros Hsvc Hnt Hexec Hi Hj Hhi Hhj Hkey.
  destruct (exec_mutex es _ _ Hnt Hexec (start_mutex cs w Hsvc)) as (_ & Hmx).
  pose proof (Hmx i ti Hi Hhi) as Hli. pose proof (Hmx j tj Hj Hhj) as Hlj.
  rewrite Hkey in Hli. congruence.
Qed.

(** C1, as the code has it. Calls of the service on any users, run from a
    fresh lock manager under any interleaving in which no hold-timeout timer
    runs, the initial balance of the user and the amounts asked for the user
    together staying a safe integer: once every call has been accepted, the
    stored balance of the user is the initial one plus the charges minus the
    uses asked for that user. *)
Theorem concurrent_calls_add_up (cs : list Call) (w : World) (es : list event)
  (sys : System) (userId : Z) :
  Forall service_call cs ->
  no_timeout es ->
  Z.abs (balance w userId) + requested_volume userId cs <= MAX_SAFE_INTEGER ->
  exec (start cs w) es = Some sys ->
  Forall accepted (tasks sys) ->
  balance (world sys) userId = balance w userId + requested_total userId cs.
Proof.
  intros Hsvc Hnt Hroom Hexec Hacc.
  destruct (exec_serial w userId es _ _ Hnt Hexec (start_serial cs w userId Hsvc Hroom))
    as (_ & _ & -> & _).
  rewrite (committed_total_accepted _ _ Hacc), (exec_calls _ _ _ Hexec).
  by rewrite start_calls.
Qed.

Ltac no_timeout_here :=
  let i := fresh "i" in
  let H := fresh "H" in
  intros i H; simpl in H;
  repeat (apply elem_of_cons in H as [H|H]; [discriminate H|]);
  by apply elem_of_nil in H.

(** Three charges of 1000, 500 and 300 made together on a fresh user and
    served one after the other leave 1800. *)
Lemma concurrent_calls_add_up_witness :
  exists sys,
    exec (start three_charges w0) queue_schedule = Some sys
    /\ balance (world sys) 1 = 1800.
Proof.
  eexists. split; [vm_compute; reflexivity|].
  apply (concurrent_calls_add_up three_charges w0 queue_schedule _ 1).
  - repeat constructor.
  - unfold queue_schedule, one_call. no_timeout_here.
  - vm_compute. discriminate.
  - vm_compute. reflexivity.
  - repeat constructor; eexists; reflexivity.
Defined.

(** C1, counterexample. Two charges of 1000 and 500 on a fresh user are both
    accepted, yet the stored balance ends at 500: the first call outlived its
    hold-timeout, the second read the balance before the first wrote it. *)
Lemma hold_timeout_loses_update :
  exists sys,
    exec (start [chargePoint 1 1000; chargePoint 1 500] w0) lost_update_schedule
      = Some sys
    /\ Forall accepted (tasks sys)
    /\ balance (world sys) 1 = 500
    /\ balance w0 1 + requested_total 1 [chargePoint 1 1000; chargePoint 1 500] = 1500.
Proof.
  eexists. split; [vm_compute; reflexivity|].
  split; [repeat constructor; eexists; reflexivity|].
  split; reflexivity.
Qed.

(** Beyond the safe integers the sums are rounded even when no timer runs:
    charges of 2^53 - 1, 1 and 1 on a fresh user, served one after the other
    and all accepted, leave 2^53, not 2^53 + 1. *)
Lemma large_sums_are_rounded :
  exists sys,
    exec (start large_charges w0) queue_schedule = Some sys
    /\ no_timeout queue_schedule
    /\ Forall accepted (tasks sys)
    /\ balance (world sys) 1 = 9007199254740992
    /\ balance w0 1 + requested_total 1 large_charges = 9007199254740993.
Proof.
  eexists. split; [vm_compute; reflexivity|].
  split; [unfold queue_schedule, one_call; no_timeout_here|].
  split; [repeat constructor; eexists; reflexivity|].
  split; reflexivity.
Qed.

(** Also in the run that loses an update the balance stays at or above 0. *)
Lemma balance_never_negative_witness :
  exists sys,
    exec (start [chargePoint 1 1000; chargePoint 1 500] w0) lost_update_schedule
      = Some sys
    /\ 0 <= balance (world sys) 1.
Proof.
  eexists. split; [vm_compute; reflexivity|].
  apply (balance_never_negative [chargePoint 1 1000; chargePoint 1 500] w0
           lost_update_schedule _ 1).
  - vm_compute. discriminate.
  - vm_compute. reflexivity.
Defined.

(** ** Giving up the wait *)

(** A call that has returned or thrown does nothing more. *)
Lemma step_finished (sys sys' : System) (e : event) (i : nat) (t : Task) r :
  step sys e = Some sys' ->
  tasks sys !! i = Some t -> t_pc t = Finished r ->
  tasks sys' !! i = Some t.
Proof.
  intros [(-> & _)|(j & t' & p' & _ & Hj & Hmove & ->)]%step_cases Hi Hpc; [done|].
  unfold set_pc. destruct (decide (j = i)) as [->|Hne].
  - rewrite Hi in Hj. injection Hj as <-. rewrite Hpc in Hmove.
    inversion Hmove; subst; simpl in *; done.
  - by rewrite list_lookup_insert_ne.
Qed.

Lemma exec_finished (es : list event) (sys sys' : System) (i : nat) (t : Task) r :
  exec sys es = Some sys' ->
  tasks sys !! i = Some t -> t_pc t = Finished r ->
  tasks sys' !! i = Some t.
Proof.
  revert sys. induction es as [|e es IH]; simpl; intros sys.
  - by intros [= <-].
  - destruct (step sys e) as [sys1|] eqn:E; [|done].
    intros H Hi Hpc. apply (IH _ H); [|done]. by eapply step_finished.
Qed.

(** C7, as the code has it. When a call looks at its key, finds it still
    taken, and the clock is past the time of the call plus [timeoutMs], the
    call fails with the lock-timeout error; the lock table, the timers and
    both tables are what they were; and the call never runs its operation: it
    stays failed whatever happens next. *)
Theorem lock_timeout_leaves_no_trace (sys : System) (i : nat) (t : Task)
  (maxWaitTime : Z) (holder : nat) :
  tasks sys !! i = Some t ->
  loop_head (t_call t) (t_pc t) (mgr sys) (world sys) maxWaitTime ->
  locks (mgr sys) !! c_key (t_call t) = Some holder ->
  maxWaitTime < now (world sys) ->
  let sys' :=
    mkSystem (<[i := timed_out (t_call t)]> (tasks sys)) (mgr sys) (world sys) in
  step sys (Resume i) = Some sys'
  /\ forall es sys'',
       exec sys' es = Some sys'' -> tasks sys'' !! i = Some (timed_out (t_call t)).
Proof.
  intros Hi Hhead Hheld Hlate sys'. assert (step sys (Resume i) = Some sys') as Hstep.
  { simpl. rewrite Hi. unfold withLock_resume, withLock_enter.
    destruct (t_pc t) as [|maxW p| | |]; simpl in Hhead; try done.
    - subst maxWaitTime. rewrite Hheld.
      destruct (now (world sys) >? _) eqn:E; [done|lia].
    - destruct Hhead as [<- Hres]. rewrite decide_True by done. rewrite Hheld.
      destruct (now (world sys) >? _) eqn:E; [done|lia]. }
  split; [done|]. intros es sys'' Hexec.
  eapply exec_finished; [exact Hexec| |reflexivity].
  unfold sys'; simpl. apply list_lookup_insert_eq. by eapply lookup_lt_Some.
Qed.

(** Four queued charges: at second six call 3, on a budget of five, finds the
    key taken by call 2 and gives up. *)
Lemma lock_timeout_leaves_no_trace_witness :
  exists sys,
    exec (start four_charges w0) crowded_schedule = Some sys
    /\ tasks sys !! 3%nat = Some (mkTask (chargePoint 1 200) (Waiting 5000 1))
    /\ now (world sys) = 6000
    /\ step sys (Resume 3)
       = Some (mkSystem (<[3%nat := timed_out (chargePoint 1 200)]> (tasks sys))
                        (mgr sys) (world sys)).
Proof.
  eexists. split; [vm_compute; reflexivity|].
  split; [reflexivity|]. split; [reflexivity|].
  refine (proj1 (lock_timeout_leaves_no_trace _ 3
                   (mkTask (chargePoint 1 200) (Waiting 5000 1)) 5000 2 _ _ _ _)).
  - reflexivity.
  - split; [reflexivity|]. vm_compute. reflexivity.
  - vm_compute. reflexivity.
  - vm_compute. reflexivity.
Defined.

(** C7, counterexample. Call 2 has waited six seconds on a budget of five
    when the promise it awaits is resolved; the key is free by then, so the
    call takes the lock and its operation is started. *)
Lemma late_waiter_still_acquires :
  exists sys sys',
    exec (start three_charges w0) late_schedule = Some sys
    /\ tasks sys !! 2%nat = Some (mkTask (chargePoint 1 300) (Waiting 5000 1))
    /\ now (world sys) = 6000
    /\ 1%nat ∈ resolved (mgr sys)
    /\ locks (mgr sys) !! userKey 1 = None
    /\ step sys (Resume 2) = Some sys'
    /\ tasks sys' !! 2%nat = Some (mkTask (chargePoint 1 300) (Running AwaitSelect)).
Proof.
  eexists. eexists. split; [vm_compute; reflexivity|].
  split; [reflexivity|]. split; [reflexivity|].
  do 3 (split; [vm_compute; reflexivity|]). reflexivity.
Qed.

(** ** Releasing after the hold-timeout *)

(** C8, at the failing input. The hold-timeout of call 0 has run and call 1
    has taken the key since. When the operation of call 0 completes, its
    [finally] block deletes the lock entry of call 1 and clears the timer of
    call 1, while call 1 is still in its critical section. *)
Lemma release_after_hold_timeout_evicts_next_holder :
  exists sys sys' v,
    exec (start [chargePoint 1 1000; chargePoint 1 500] w0) evict_schedule = Some sys
    /\ tasks sys !! 0%nat = Some (mkTask (chargePoint 1 1000) (Settled (inr v)))
    /\ 0%nat ∈ resolved (mgr sys)
    /\ armed (mgr sys) !! 0%nat = None
    /\ locks (mgr sys) !! userKey 1 = Some 1%nat
    /\ armed (mgr sys) !! 1%nat = Some 10000
    /\ step sys (Resume 0) = Some sys'
    /\ tasks sys' !! 1%nat = Some (mkTask (chargePoint 1 500) (Running AwaitSelect))
    /\ locks (mgr sys') !! userKey 1 = None
    /\ armed (mgr sys') !! 1%nat = None.
Proof.
  eexists. eexists. eexists. split; [vm_compute; reflexivity|].
  split; [reflexivity|]. split; [vm_compute; reflexivity|].
  do 3 (split; [vm_compute; reflexivity|]).
  split; [vm_compute; reflexivity|].
  split; [reflexivity|]. split; vm_compute; reflexivity.
Qed.

(** ** One timeout for the wait and for the hold *)

Lemma resume_at (sys sys' : System) (i : nat) (t t' : Task) :
  tasks sys !! i = Some t ->
  step sys (Resume i) = Some sys' ->
  tasks sys' !! i = Some t' ->
  t_call t' = t_call t
  /\ move i (t_call t) (t_pc t) (mgr sys) (world sys) (t_pc t') (mgr sys') (world sys').
Proof.
  intros Hi Hstep Hi'.
  apply step_cases in Hstep as [(_ & _ & _ & [])|(j & t0 & p' & [= <-] & Hj & Hmove & Hts)].
  rewrite Hi in Hj. injection Hj as <-.
  rewrite Hts in Hi'. unfold set_pc in Hi'.
  rewrite list_lookup_insert_eq in Hi' by (by eapply lookup_lt_Some).
  by injection Hi' as <-.
Qed.

(** The deadline of a call that has to wait is the time of the call plus
    [timeoutMs], as a number. *)
Lemma wait_deadline (i : nat) (c : Call) m w maxWaitTime p m' w' :
  move i c NotCalled m w (Waiting maxWaitTime p) m' w' ->
  maxWaitTime = js_add (now w) (c_timeoutMs c).
Proof.
  intros Hmove. inversion Hmove; subst; simpl in *; try done.
  unfold after_call in *. by destruct (op_call _).
Qed.

(** The timer of a call that takes the lock runs after the delay
    [setTimeout] makes of [timeoutMs]. *)
Lemma hold_deadline (i : nat) (c : Call) p m w p' m' w' :
  move i c p m w p' m' w' ->
  ~ holding p -> holding p' ->
  armed m' !! i = Some (now w + setTimeout_delay (c_timeoutMs c)).
Proof.
  intros Hmove Hout Hin. inversion Hmove; subst; simpl in *; try done.
  by rewrite lookup_insert_eq.
Qed.

Lemma setTimeout_delay_kept (ms : Z) :
  1 <= ms <= TIMEOUT_MAX -> setTimeout_delay ms = ms.
Proof.
  intros H. unfold setTimeout_delay.
  destruct (1 <=? ms) eqn:E1; [|lia]. destruct (ms <=? TIMEOUT_MAX) eqn:E2; [done|lia].
Qed.

(** C9, as the code has it. [withLock] has one [timeoutMs]. For a call whose
    [timeoutMs] lies between 1 and 2^31 - 1, made at a time that leaves the
    deadline a safe integer: if it finds its key taken it waits until the
    time of the call plus [timeoutMs], and when it takes the lock it sets its
    timer to run [timeoutMs] later. *)
Theorem one_timeout_bounds_wait_and_hold (sys sys' : System) (i : nat) (t t' : Task) :
  tasks sys !! i = Some t ->
  step sys (Resume i) = Some sys' ->
  tasks sys' !! i = Some t' ->
  1 <= c_timeoutMs (t_call t) <= TIMEOUT_MAX ->
  isSafeInteger (now (world sys) + c_timeoutMs (t_call t)) ->
  (t_pc t = NotCalled ->
   forall maxWaitTime p,
     t_pc t' = Waiting maxWaitTime p ->
     maxWaitTime = now (world sys) + c_timeoutMs (t_call t))
  /\ (~ holding (t_pc t) -> holding (t_pc t') ->
      armed (mgr sys') !! i = Some (now (world sys) + c_timeoutMs (t_call t))).
Proof.
  intros Hi Hstep Hi' Hrange Hsafe.
  destruct (resume_at _ _ _ _ _ Hi Hstep Hi') as [_ Hmove]. split.
  - intros Hpc maxWaitTime p Hpc'. rewrite Hpc, Hpc' in Hmove.
    rewrite (wait_deadline _ _ _ _ _ _ _ _ Hmove). by apply toDouble_safe.
  - intros Hout Hin. rewrite (hold_deadline _ _ _ _ _ _ _ _ Hmove Hout Hin).
    by rewrite setTimeout_delay_kept.
Qed.

(** The first of three charges, made at time 0, sets its timer to 5000; the
    second, made while the first holds the key, waits until 5000. *)
Lemma one_timeout_bounds_wait_and_hold_witness :
  (exists sys',
     step (start three_charges w0) (Resume 0) = Some sys'
     /\ armed (mgr sys') !! 0%nat = Some 5000)
  /\ (exists sys sys' p,
        exec (start three_charges w0) [Resume 0%nat] = Some sys
        /\ step sys (Resume 1) = Some sys'
        /\ tasks sys' !! 1%nat = Some (mkTask (chargePoint 1 500) (Waiting 5000 p))
        /\ 5000 = now (world sys) + c_timeoutMs (chargePoint 1 500)).
Proof.
  split.
  - eexists. split; [vm_compute; reflexivity|].
    refine (proj2 (one_timeout_bounds_wait_and_hold (start three_charges w0) _ 0
                     (mkTask (chargePoint 1 1000) NotCalled)
                     (mkTask (chargePoint 1 1000) (Running AwaitSelect)) _ _ _ _ _) _ _).
    + reflexivity.
    + vm_compute. reflexivity.
    + reflexivity.
    + vm_compute. split; discriminate.
    + vm_compute. split; discriminate.
    + simpl. tauto.
    + exact I.
  - eexists. eexists. eexists. split; [vm_compute; reflexivity|].
    split; [vm_compute; reflexivity|]. split; [reflexivity|].
    refine (proj1 (one_timeout_bounds_wait_and_hold _ _ 1
                     (mkTask (chargePoint 1 500) NotCalled)
                     (mkTask (chargePoint 1 500) (Waiting 5000 0)) _ _ _ _ _)
              eq_refl 5000 0%nat eq_refl).
    + reflexivity.
    + vm_compute. reflexivity.
    + reflexivity.
    + vm_compute. split; discriminate.
    + vm_compute. split; discriminate.
Defined.

(** C9, counterexample. The wait bound and the hold bound are not two
    parameters: no call, made at a time a [Date] can hold, waits for up to
    5000 ms when its key is taken and sets its timer to 3000 ms when it takes
    the lock. *)
Lemma no_call_has_two_timeouts :
  ~ exists (c : Call) (sysW sysW' sysH sysH' : System) (i j : nat)
      (maxWaitTime due : Z) (p : nat),
      tasks sysW !! i = Some (mkTask c NotCalled)
      /\ step sysW (Resume i) = Some sysW'
      /\ tasks sysW' !! i = Some (mkTask c (Waiting maxWaitTime p))
      /\ tasks sysH !! j = Some (mkTask c NotCalled)
      /\ step sysH (Resume j) = Some sysH'
      /\ locks (mgr sysH) !! c_key c = None
      /\ armed (mgr sysH') !! j = Some due
      /\ 0 <= now (world sysW) <= MAX_TIME
      /\ maxWaitTime - now (world sysW) = 5000
      /\ due - now (world sysH) = 3000.
Proof.
  intros (c & sysW & sysW' & sysH & sysH' & i & j & maxWaitTime & due & p
          & Hi & HstepW & Hi' & Hj & HstepH & Hfree & Hdue & Hclock & Hwait & Hhold).
  (* the timer: the delay is 3000, so [timeoutMs] is *)
  revert HstepH. simpl. rewrite Hj.
  unfold withLock_resume, withLock_enter; simpl. rewrite Hfree.
  intros [= <-]. simpl in Hdue. rewrite lookup_insert_eq in Hdue.
  injection Hdue as <-.
  assert (c_timeoutMs c = 3000) as HT.
  { revert Hhold. unfold setTimeout_delay.
    destruct (_ && _); lia. }
  (* the deadline: the time of the call plus 3000, exactly *)
  destruct (resume_at _ _ _ _ _ Hi HstepW Hi') as [_ HmoveW]. simpl in HmoveW.
  pose proof (wait_deadline _ _ _ _ _ _ _ _ HmoveW) as Hdeadline.
  unfold js_add in Hdeadline. rewrite HT, toDouble_safe in Hdeadline.
  - lia.
  - unfold isSafeInteger, MAX_SAFE_INTEGER, MAX_TIME in *. lia.
Qed.

(** ** A call that runs alone is its closure *)

Lemma exec_cons (sys sys1 : System) (e : event) (es : list event) :
  step sys e = Some sys1 -> exec sys (e :: es) = exec sys1 es.
Proof. simpl. by intros ->. Qed.

Lemma step_tick (sys : System) (ms : N) :
  step sys (Tick ms)
  = Some (mkSystem (tasks sys) (mgr sys) (snd (sleep ms (world sys)))).
Proof. done. Qed.

Lemma step_call_alone (c : Call) (w : World) :
  step (mkSystem [mkTask c NotCalled] noLocks w) (Resume 0)
  = Some (mkSystem [mkTask c (after_call c)] (acquired 0 c (now w) noLocks) w).
Proof. simpl. unfold withLock_resume, withLock_enter; simpl. by rewrite lookup_empty. Qed.

Lemma step_run_alone (c : Call) (s : op_state) (m : LockManager) (w : World) :
  step (mkSystem [mkTask c (Running s)] m w) (Resume 0)
  = Some (mkSystem [mkTask c (after_resume (fst (op_resume c s w)))] m
                   (snd (op_resume c s w))).
Proof. simpl. unfold withLock_resume; simpl. by destruct (op_resume c s w) as [r w']. Qed.

Lemma step_finally_alone (c : Call) (r : exn + UserPoint) (t : Z) (w : World) :
  step (mkSystem [mkTask c (Settled r)] (acquired 0 c t noLocks) w) (Resume 0)
  = Some (mkSystem [mkTask c (Finished r)] (mkLockManager ∅ ∅ ∅ {[0%nat]}) w).
Proof.
  simpl. unfold withLock_resume, set_pc, withLock_finally, acquired, noLocks; simpl.
  rewrite lookup_insert_eq; simpl.
  rewrite !delete_insert_eq, !delete_empty.
  by rewrite union_empty_r_L.
Qed.

Ltac run_closure :=
  unfold after_call, after_resume, op_call, op_resume,
    await, bind, sleep, selectById, insertOrUpdate, insert, Date_now, ret, throw,
    InvalidAmount, InsufficientBalance;
  cbn -[exec step].

Ltac alone_step :=
  first
    [ rewrite (exec_cons _ _ _ _ (step_call_alone _ _))
    | rewrite (exec_cons _ _ _ _ (step_run_alone _ _ _ _))
    | rewrite (exec_cons _ _ _ _ (step_finally_alone _ _ _ _))
    | rewrite (exec_cons _ _ _ _ (step_tick _ _)) ];
  cbn [tasks mgr world].

(** X2. A call made on a fresh manager with nothing else in flight returns
    what its closure returns and leaves the world its closure leaves; the
    lock table and the timers are empty again. *)
Lemma withLock_alone (lat : Latency) (c : Call) (w : World) :
  exec (start [c] w) (alone_schedule lat c w)
  = Some (mkSystem [mkTask c (Finished (fst (operation lat c w)))]
                   (mkLockManager ∅ ∅ ∅ {[0%nat]})
                   (snd (operation lat c w))).
Proof.
  remember (operation lat c w) as R eqn:ER.
  unfold alone_schedule, start. cbn [map].
  destruct (c_amount c <=? 0) eqn:E;
    [|destruct (c_type c) eqn:Ety;
      [|destruct (balance w (c_userId c) <? c_amount c) eqn:Elow]];
    repeat (alone_step; run_closure;
            rewrite ?E, ?Ety, ?balance_default, ?Elow; cbn -[exec step]);
    subst R; cbn [exec]; run_M; rewrite ?E, ?Ety; simpl;
    rewrite ?balance_default, ?Elow; simpl; rewrite ?Ety; try done.
  by destruct (c_type c).
Qed.

(** * Further properties of the event loop *)

(** ** The lock table under every schedule *)

Lemma after_call_holding (c : Call) : holding (after_call c).
Proof. unfold after_call. by destruct (op_call c). Qed.

Lemma after_resume_holding (r : exn + (op_state + UserPoint)) : holding (after_resume r).
Proof. by destruct r as [|[|]]. Qed.

Lemma loop_head_not_holding (c : Call) p m w maxWaitTime :
  loop_head c p m w maxWaitTime -> ~ holding p.
Proof. destruct p; simpl; tauto. Qed.

(** The closures never touch the clock. *)
Lemma op_resume_now (c : Call) (s : op_state) (w w' : World) r :
  op_resume c s w = (r, w') -> now w' = now w.
Proof.
  destruct s; run_M.
  - destruct (c_type c); [|destruct (_ <? _)]; by intros [= <- <-].
  - by intros [= <- <-].
  - by intros [= <- <-].
Qed.

Lemma set_pc_lookup_eq (i : nat) (t : Task) (p : pc) (ts : list Task) :
  ts !! i = Some t -> set_pc i t p ts !! i = Some (mkTask (t_call t) p).
Proof. intros Hi. apply list_lookup_insert_eq. by eapply lookup_lt_Some. Qed.

Lemma set_pc_lookup_ne (i j : nat) (t : Task) (p : pc) (ts : list Task) :
  i <> j -> set_pc i t p ts !! j = ts !! j.
Proof. intros Hne. by apply list_lookup_insert_ne. Qed.

Lemma move_lock_inv (sys : System) (i : nat) (t : Task) p' m' w' :
  tasks sys !! i = Some t ->
  move i (t_call t) (t_pc t) (mgr sys) (world sys) p' m' w' ->
  lock_inv sys ->
  lock_inv (mkSystem (set_pc i t p' (tasks sys)) m' w').
Proof.
  intros Hi Hmove (HL & HT & HA).
  (* what the maps say about call [i] itself *)
  assert (forall k, locks (mgr sys) !! k = Some i -> k = c_key (t_call t) /\ holding (t_pc t))
    as HLi.
  { intros k (t0 & Ht0 & Hk & Hh & _)%HL. rewrite Hi in Ht0. by injection Ht0 as <-. }
  assert (forall k, timeouts (mgr sys) !! k = Some i -> k = c_key (t_call t) /\ holding (t_pc t))
    as HTi.
  { intros k (t0 & Ht0 & Hk & Hh)%HT. rewrite Hi in Ht0. by injection Ht0 as <-. }
  assert (forall due, armed (mgr sys) !! i = Some due ->
                      locks (mgr sys) !! c_key (t_call t) = Some i) as HAi.
  { intros due (t0 & Ht0 & Hl & _)%HA. rewrite Hi in Ht0. by injection Ht0 as <-. }
  remember (t_pc t) as p eqn:Ep. remember (mgr sys) as m eqn:Em.
  remember (world sys) as w eqn:Ew. remember (t_call t) as c eqn:Ec.
  destruct Hmove as [p m w maxW holder Hhead Hheld Hlate|p m w maxW holder Hhead Hheld Hsoon
                    |p m w maxW Hhead Hfree|s m w r w' Hop|r m w]; subst.
  - (* gives up: nothing changes but a call outside its critical section *)
    apply loop_head_not_holding in Hhead.
    split; [|split]; simpl.
    + intros k j Hk. destruct (HL k j Hk) as (tj & Hj & Hkj & Hhj & Htj & Haj).
      destruct (decide (i = j)) as [->|Hne]; [by destruct (HLi k Hk)|].
      exists tj. by rewrite set_pc_lookup_ne.
    + intros k j Hk. destruct (HT k j Hk) as (tj & Hj & Hkj & Hhj).
      destruct (decide (i = j)) as [->|Hne]; [by destruct (HTi k Hk)|].
      exists tj. by rewrite set_pc_lookup_ne.
    + intros j due Hj. destruct (HA j due Hj) as (tj & Htj & Hlj & Hdj).
      destruct (decide (i = j)) as [->|Hne].
      { by destruct (HLi _ (HAi _ Hj)). }
      exists tj. by rewrite set_pc_lookup_ne.
  - apply loop_head_not_holding in Hhead.
    split; [|split]; simpl.
    + intros k j Hk. destruct (HL k j Hk) as (tj & Hj & Hkj & Hhj & Htj & Haj).
      destruct (decide (i = j)) as [->|Hne]; [by destruct (HLi k Hk)|].
      exists tj. by rewrite set_pc_lookup_ne.
    + intros k j Hk. destruct (HT k j Hk) as (tj & Hj & Hkj & Hhj).
      destruct (decide (i = j)) as [->|Hne]; [by destruct (HTi k Hk)|].
      exists tj. by rewrite set_pc_lookup_ne.
    + intros j due Hj. destruct (HA j due Hj) as (tj & Htj & Hlj & Hdj).
      destruct (decide (i = j)) as [->|Hne].
      { by destruct (HLi _ (HAi _ Hj)). }
      exists tj. by rewrite set_pc_lookup_ne.
  - (* takes the lock *)
    apply loop_head_not_holding in Hhead.
    split; [|split]; simpl.
    + intros k j. destruct (decide (c_key (t_call t) = k)) as [<-|Hk].
      * rewrite lookup_insert_eq. intros [= <-].
        exists (mkTask (t_call t) (after_call (t_call t))).
        rewrite set_pc_lookup_eq by done. rewrite !lookup_insert_eq.
        split; [done|]. split; [done|]. split; [apply after_call_holding|]. by split.
      * rewrite lookup_insert_ne by done. intros Hj.
        destruct (HL k j Hj) as (tj & Htj & Hkj & Hhj & Htoj & Haj).
        destruct (decide (i = j)) as [->|Hne]; [by destruct (HLi k Hj)|].
        exists tj. rewrite set_pc_lookup_ne by done.
        by rewrite !lookup_insert_ne.
    + intros k j. destruct (decide (c_key (t_call t) = k)) as [<-|Hk].
      * rewrite lookup_insert_eq. intros [= <-].
        exists (mkTask (t_call t) (after_call (t_call t))).
        rewrite set_pc_lookup_eq by done.
        split; [done|]. split; [done|]. apply after_call_holding.
      * rewrite lookup_insert_ne by done. intros Hj.
        destruct (HT k j Hj) as (tj & Htj & Hkj & Hhj).
        destruct (decide (i = j)) as [->|Hne]; [by destruct (HTi k Hj)|].
        exists tj. by rewrite set_pc_lookup_ne.
    + intros j due. destruct (decide (i = j)) as [<-|Hne].
      * rewrite lookup_insert_eq. intros [= <-].
        exists (mkTask (t_call t) (after_call (t_call t))).
        rewrite set_pc_lookup_eq by done. simpl. rewrite lookup_insert_eq.
        split; [done|]. split; [done|]. lia.
      * rewrite lookup_insert_ne by done. intros Hj.
        destruct (HA j due Hj) as (tj & Htj & Hlj & Hdj).
        exists tj. rewrite set_pc_lookup_ne by done.
        split; [done|]. split; [|done].
        rewrite lookup_insert_ne; [done|]. intros Hk. rewrite Hk in Hfree. congruence.
  - (* the closure runs on: the maps and the clock are as before *)
    pose proof (op_resume_now _ _ _ _ _ Hop) as Hnow.
    pose proof (after_resume_holding r) as Hh'.
    split; [|split]; simpl.
    + intros k j Hk. destruct (HL k j Hk) as (tj & Hj & Hkj & Hhj & Htj & Haj).
      destruct (decide (i = j)) as [->|Hne].
      * rewrite Hi in Hj. injection Hj as <-.
        eexists. rewrite set_pc_lookup_eq by done. by split.
      * exists tj. by rewrite set_pc_lookup_ne.
    + intros k j Hk. destruct (HT k j Hk) as (tj & Hj & Hkj & Hhj).
      destruct (decide (i = j)) as [->|Hne].
      * rewrite Hi in Hj. injection Hj as <-.
        eexists. rewrite set_pc_lookup_eq by done. by split.
      * exists tj. by rewrite set_pc_lookup_ne.
    + intros j due Hj. destruct (HA j due Hj) as (tj & Htj & Hlj & Hdj).
      destruct (decide (i = j)) as [->|Hne].
      * rewrite Hi in Htj. injection Htj as <-.
        eexists. rewrite set_pc_lookup_eq by done. rewrite Hnow. by split.
      * exists tj. rewrite set_pc_lookup_ne by done. by rewrite Hnow.
  - (* the [finally] block: everything under the key of call [i] goes *)
    assert (forall q, timeouts (mgr sys) !! c_key (t_call t) = Some q ->
                      forall j tj, tasks sys !! j = Some tj ->
                                   c_key (t_call tj) <> c_key (t_call t) -> q <> j) as Hq.
    { intros q (tq & Htq & Hkq & _)%HT j tj Htj Hkj ->.
      rewrite Htq in Htj. injection Htj as <-. done. }
    split; [|split]; simpl.
    + intros k j. destruct (decide (c_key (t_call t) = k)) as [<-|Hk];
        [by rewrite lookup_delete_eq|].
      rewrite !lookup_delete_ne by done. intros Hj.
      destruct (HL k j Hj) as (tj & Htj & Hkj & Hhj & Htoj & Haj).
      assert (i <> j) as Hne.
      { intros ->. rewrite Hi in Htj. injection Htj as <-. done. }
      exists tj. rewrite set_pc_lookup_ne by done.
      do 4 (split; [done|]).
      unfold clearTimeout. destruct (timeouts (mgr sys) !! c_key (t_call t)) as [q|] eqn:Eq;
        [|done].
      rewrite lookup_delete_ne; [done|]. apply (Hq q eq_refl j tj Htj). congruence.
    + intros k j. destruct (decide (c_key (t_call t) = k)) as [<-|Hk];
        [by rewrite lookup_delete_eq|].
      rewrite !lookup_delete_ne by done. intros Hj.
      destruct (HT k j Hj) as (tj & Htj & Hkj & Hhj).
      assert (i <> j) as Hne.
      { intros ->. rewrite Hi in Htj. injection Htj as <-. done. }
      exists tj. by rewrite set_pc_lookup_ne.
    + intros j due Hj.
      assert (armed (mgr sys) !! j = Some due
              /\ timeouts (mgr sys) !! c_key (t_call t) <> Some j) as [Hj' Hnq].
      { revert Hj. unfold clearTimeout.
        destruct (timeouts (mgr sys) !! c_key (t_call t)) as [q|]; [|done].
        destruct (decide (q = j)) as [->|Hne]; [by rewrite lookup_delete_eq|].
        rewrite lookup_delete_ne by done. intros Hj. split; [done|congruence]. }
      destruct (HA j due Hj') as (tj & Htj & Hlj & Hdj).
      assert (c_key (t_call tj) <> c_key (t_call t)) as Hk.
      { intros Hk. rewrite Hk in Hlj.
        destruct (HL _ _ Hlj) as (_ & _ & _ & _ & Hto & _). done. }
      assert (i <> j) as Hne.
      { intros ->. rewrite Hi in Htj. injection Htj as <-. done. }
      exists tj. rewrite set_pc_lookup_ne by done.
      split; [done|]. split; [|done]. by rewrite lookup_delete_ne.
Qed.

Lemma step_lock_inv (sys sys' : System) (e : event) :
  step sys e = Some sys' -> lock_inv sys -> lock_inv sys'.
Proof.
  destruct e as [ms|i|i].
  - simpl. intros [= <-] (HL & HT & HA). split; [done|]. split; [done|].
    intros j due Hj. destruct (HA j due Hj) as (tj & Htj & Hlj & Hdj).
    exists tj. simpl. split; [done|]. split; [done|]. lia.
  - intros Hstep Hinv. pose proof Hstep as Hstep'.
    apply step_cases in Hstep' as [(_ & _ & _ & [])|(j & t & p' & [= <-] & Hi & Hmove & Hts)].
    pose proof (move_lock_inv _ _ _ _ _ _ Hi Hmove Hinv) as Hinv'.
    destruct sys' as [ts' m' w']. simpl in *. by subst ts'.
  - simpl. destruct (tasks sys !! i) as [t|] eqn:Hi; [|done].
    destruct (armed (mgr sys) !! i) as [due|] eqn:Hdue; [|done].
    destruct (due <=? now (world sys)); [|done].
    intros [= <-] (HL & HT & HA).
    assert (locks (mgr sys) !! c_key (t_call t) = Some i) as Hown.
    { destruct (HA i due Hdue) as (t0 & Ht0 & Hl & _). rewrite Hi in Ht0.
      by injection Ht0 as <-. }
    split; [|split]; simpl.
    + intros k j. destruct (decide (c_key (t_call t) = k)) as [<-|Hk];
        [by rewrite lookup_delete_eq|].
      rewrite lookup_delete_ne by done. intros Hj.
      destruct (HL k j Hj) as (tj & Htj & Hkj & Hhj & Htoj & Haj).
      exists tj. do 4 (split; [done|]).
      rewrite lookup_delete_ne; [done|].
      intros ->. rewrite Hi in Htj. injection Htj as <-. done.
    + done.
    + intros j due'. destruct (decide (i = j)) as [<-|Hne];
        [by rewrite lookup_delete_eq|].
      rewrite lookup_delete_ne by done. intros Hj.
      destruct (HA j due' Hj) as (tj & Htj & Hlj & Hdj).
      exists tj. split; [done|]. split; [|done].
      rewrite lookup_delete_ne; [done|].
      intros Hk. rewrite Hk in Hown. congruence.
Qed.

Lemma exec_lock_inv (es : list event) (sys sys' : System) :
  exec sys es = Some sys' -> lock_inv sys -> lock_inv sys'.
Proof.
  revert sys. induction es as [|e es IH]; simpl; intros sys.
  - by intros [= <-].
  - destruct (step sys e) as [sys1|] eqn:E; [|done].
    intros H Hinv. apply (IH _ H). by eapply step_lock_inv.
Qed.

Lemma start_lock_inv (cs : list Call) (w : World) : lock_inv (start cs w).
Proof. split; [|split]; simpl; intros ? ?; by rewrite lookup_empty. Qed.

(** X3. Under every schedule a key that is taken has its hold-timeout
    pending: the lock entry names a call that is in its critical section on
    that key, the timer of that call is the one registered for the key, it is
    set, and it is due no later than the delay of its [setTimeout] from now. *)
Theorem held_key_has_its_timer (cs : list Call) (w : World) (es : list event)
  (sys : System) (k : string) (i : nat) :
  exec (start cs w) es = Some sys ->
  locks (mgr sys) !! k = Some i ->
  exists (t : Task) (due : Z),
    tasks sys !! i = Some t
    /\ c_key (t_call t) = k
    /\ holding (t_pc t)
    /\ timeouts (mgr sys) !! k = Some i
    /\ armed (mgr sys) !! i = Some due
    /\ due <= now (world sys) + setTimeout_delay (c_timeoutMs (t_call t)).
Proof.
  intros Hexec Hk.
  destruct (exec_lock_inv _ _ _ Hexec (start_lock_inv cs w)) as (HL & _ & HA).
  destruct (HL k i Hk) as (t & Ht & Hkey & Hh & Hto & [due Hdue]).
  destruct (HA i due Hdue) as (t0 & Ht0 & _ & Hbound).
  rewrite Ht in Ht0. injection Ht0 as <-. by exists t, due.
Qed.

(** Five seconds into the critical section of call 0 its timer, due at 5000,
    is still set. *)
Lemma held_key_has_its_timer_witness :
  exists sys,
    exec (start [chargePoint 1 1000; chargePoint 1 500] w0) overdue_schedule = Some sys
    /\ exists (t : Task) (due : Z),
         tasks sys !! 0%nat = Some t
         /\ c_key (t_call t) = userKey 1
         /\ holding (t_pc t)
         /\ timeouts (mgr sys) !! userKey 1 = Some 0%nat
         /\ armed (mgr sys) !! 0%nat = Some due
         /\ due <= now (world sys) + setTimeout_delay (c_timeoutMs (t_call t)).
Proof.
  eexists. split; [vm_compute; reflexivity|].
  apply (held_key_has_its_timer [chargePoint 1 1000; chargePoint 1 500] w0
           overdue_schedule _ (userKey 1) 0).
  - vm_compute. reflexivity.
  - vm_compute. reflexivity.
Defined.

(** X4. Under every schedule, hold-timeouts and failing operations included,
    once every call has returned or thrown the manager holds nothing: no lock
    entry, no registered timer, no timer that is set. *)
Theorem nothing_left_behind (cs : list Call) (w : World) (es : list event)
  (sys : System) :
  exec (start cs w) es = Some sys ->
  Forall finished (tasks sys) ->
  locks (mgr sys) = ∅ /\ timeouts (mgr sys) = ∅ /\ armed (mgr sys) = ∅.
Proof.
  intros Hexec Hfin.
  destruct (exec_lock_inv _ _ _ Hexec (start_lock_inv cs w)) as (HL & HT & HA).
  assert (forall i t, tasks sys !! i = Some t -> ~ holding (t_pc t)) as Hout.
  { intros i t Hi. destruct (Forall_lookup_1 _ _ _ _ Hfin Hi) as [r ->]. tauto. }
  assert (locks (mgr sys) = ∅) as Hlocks.
  { apply map_empty. intros k. destruct (locks (mgr sys) !! k) as [i|] eqn:Hk; [|done].
    destruct (HL k i Hk) as (t & Ht & _ & Hh & _). by destruct (Hout i t Ht). }
  split; [done|]. split.
  - apply map_empty. intros k. destruct (timeouts (mgr sys) !! k) as [i|] eqn:Hk; [|done].
    destruct (HT k i Hk) as (t & Ht & _ & Hh). by destruct (Hout i t Ht).
  - apply map_empty. intros i. destruct (armed (mgr sys) !! i) as [due|] eqn:Hi; [|done].
    destruct (HA i due Hi) as (t & _ & Hl & _). by rewrite Hlocks, lookup_empty in Hl.
Qed.

(** The run that loses an update, with its hold-timeout and its release of
    another call's entry, ends with an empty manager. *)
Lemma nothing_left_behind_witness :
  exists sys,
    exec (start [chargePoint 1 1000; chargePoint 1 500] w0) lost_update_schedule
      = Some sys
    /\ locks (mgr sys) = ∅ /\ timeouts (mgr sys) = ∅ /\ armed (mgr sys) = ∅.
Proof.
  eexists. split; [vm_compute; reflexivity|].
  apply (nothing_left_behind [chargePoint 1 1000; chargePoint 1 500] w0
           lost_update_schedule).
  - vm_compute. reflexivity.
  - repeat constructor; eexists; reflexivity.
Defined.

(** X5. Under every schedule the timer callback of a call removes the lock
    entry of that very call, never another one's, and it does so while the
    call is still in its critical section: the key is free and the promise
    resolved although the operation has not completed. *)
Theorem hold_timeout_frees_own_entry (cs : list Call) (w : World) (es : list event)
  (sys sys' : System) (i : nat) (t : Task) :
  exec (start cs w) es = Some sys ->
  tasks sys !! i = Some t ->
  step sys (Timeout i) = Some sys' ->
  locks (mgr sys) !! c_key (t_call t) = Some i
  /\ holding (t_pc t)
  /\ tasks sys' = tasks sys
  /\ locks (mgr sys') = delete (c_key (t_call t)) (locks (mgr sys))
  /\ i ∈ resolved (mgr sys').
Proof.
  intros Hexec Hi. simpl. rewrite Hi.
  destruct (armed (mgr sys) !! i) as [due|] eqn:Hdue; [|done].
  destruct (due <=? now (world sys)); [|done]. intros [= <-]. simpl.
  destruct (exec_lock_inv _ _ _ Hexec (start_lock_inv cs w)) as (HL & _ & HA).
  destruct (HA i due Hdue) as (t0 & Ht0 & Hl & _).
  rewrite Hi in Ht0. injection Ht0 as <-.
  destruct (HL _ _ Hl) as (t0 & Ht0 & _ & Hh & _).
  rewrite Hi in Ht0. injection Ht0 as <-.
  split; [done|]. split; [done|]. split; [done|]. split; [done|]. set_solver.
Qed.

(** The timer of call 0 runs at second five, while the write of call 0 is
    pending. *)
Lemma hold_timeout_frees_own_entry_witness :
  exists sys sys',
    exec (start [chargePoint 1 1000; chargePoint 1 500] w0) overdue_schedule = Some sys
    /\ step sys (Timeout 0) = Some sys'
    /\ locks (mgr sys) !! userKey 1 = Some 0%nat
    /\ tasks sys !! 0%nat = Some (mkTask (chargePoint 1 1000) (Running (AwaitUpdate 1000 100)))
    /\ locks (mgr sys') !! userKey 1 = None.
Proof.
  eexists. eexists. split; [vm_compute; reflexivity|].
  split; [vm_compute; reflexivity|].
  split; [|split; [reflexivity|vm_compute; reflexivity]].
  refine (proj1 (hold_timeout_frees_own_entry [chargePoint 1 1000; chargePoint 1 500] w0
                   overdue_schedule _ _ 0
                   (mkTask (chargePoint 1 1000) (Running (AwaitUpdate 1000 100))) _ _ _)).
  - vm_compute. reflexivity.
  - reflexivity.
  - vm_compute. reflexivity.
Defined.

(** ** Calls of different users *)

(** The keys of two users are the same only if the users are. *)
Lemma userKey_inj (u v : Z) : userKey u = userKey v -> u = v.
Proof.
  unfold userKey. intros H. apply String.app_inj in H. by apply pretty_Z_inj in H.
Qed.

Lemma exec_service_calls (cs : list Call) (w : World) (es : list event) (sys : System)
  (i : nat) (t : Task) :
  Forall service_call cs ->
  exec (start cs w) es = Some sys ->
  tasks sys !! i = Some t ->
  service_call (t_call t).
Proof.
  intros Hsvc Hexec Hi. apply exec_calls in Hexec.
  unfold start in Hexec; simpl in Hexec. rewrite map_map, map_id in Hexec.
  eapply Forall_lookup_1; [exact Hsvc|].
  rewrite <- Hexec. change (map t_call (tasks sys)) with (t_call <$> tasks sys).
  by rewrite list_lookup_fmap, Hi.
Qed.

(** X6. Under every schedule a call of the service that is made while no
    call of the same user is in its critical section takes the lock and
    starts its operation at once, whatever the calls of other users are
    doing: it neither waits nor times out. *)
Theorem other_users_never_block (cs : list Call) (w : World) (es : list event)
  (sys : System) (j : nat) (t : Task) :
  Forall service_call cs ->
  exec (start cs w) es = Some sys ->
  tasks sys !! j = Some t ->
  t_pc t = NotCalled ->
  (forall i ti, tasks sys !! i = Some ti -> holding (t_pc ti) ->
                c_userId (t_call ti) <> c_userId (t_call t)) ->
  step sys (Resume j)
  = Some (mkSystem (set_pc j t (after_call (t_call t)) (tasks sys))
                   (acquired j (t_call t) (now (world sys)) (mgr sys))
                   (world sys))
  /\ holding (after_call (t_call t)).
Proof.
  intros Hsvc Hexec Hj Hpc Hothers. split; [|apply after_call_holding].
  assert (locks (mgr sys) !! c_key (t_call t) = None) as Hfree.
  { destruct (locks (mgr sys) !! c_key (t_call t)) as [i|] eqn:Hk; [|done].
    destruct (exec_lock_inv _ _ _ Hexec (start_lock_inv cs w)) as (HL & _).
    destruct (HL _ _ Hk) as (ti & Hi & Hkey & Hh & _).
    destruct (Hothers i ti Hi Hh). apply userKey_inj.
    rewrite <- (exec_service_calls _ _ _ _ _ _ Hsvc Hexec Hi).
    by rewrite <- (exec_service_calls _ _ _ _ _ _ Hsvc Hexec Hj). }
  simpl. rewrite Hj. unfold withLock_resume, withLock_enter. by rewrite Hpc, Hfree.
Qed.

(** User 2 charges while user 1 is in the middle of a charge. *)
Lemma other_users_never_block_witness :
  exists sys,
    exec (start two_users w0) [Resume 0%nat] = Some sys
    /\ step sys (Resume 1)
       = Some (mkSystem (set_pc 1 (mkTask (chargePoint 2 2000) NotCalled)
                                (Running AwaitSelect) (tasks sys))
                        (acquired 1 (chargePoint 2 2000) 0 (mgr sys))
                        (world sys)).
Proof.
  eexists. split; [vm_compute; reflexivity|].
  refine (proj1 (other_users_never_block two_users w0 [Resume 0%nat] _ 1
                   (mkTask (chargePoint 2 2000) NotCalled) _ _ _ _ _)).
  - repeat constructor.
  - vm_compute. reflexivity.
  - reflexivity.
  - reflexivity.
  - intros [|[|i]] ti; simpl; intros [= <-]; simpl; [discriminate|tauto].
Defined.

(** ** How calls end *)

Lemma move_outcome (i : nat) (c : Call) p m w p' m' w' :
  move i c p m w p' m' w' -> outcome_ok c p -> outcome_ok c p'.
Proof.
  intros [p0 m0 w1 maxW holder Hhead| p0 m0 w1 maxW holder Hhead|p0 m0 w1 maxW Hhead Hfree
         |s m0 w1 r w2 Hop|r m0 w1] Hok; simpl.
  - by right; right.
  - done.
  - unfold after_call, op_call. destruct (c_amount c <=? 0) eqn:E; simpl.
    + left. split; [lia|done].
    + lia.
  - simpl in Hok. destruct s as [|newPoint updateTime|newPoint updateTime];
      revert Hop; run_M.
    + destruct (c_type c) eqn:Ety; [|destruct (_ <? _)]; intros [= <- <-]; simpl;
        [done| |done].
      right. by split.
    + by intros [= <- <-].
    + by intros [= <- <-].
  - destruct r as [e|v]; simpl in *; [|done].
    destruct Hok as [?|?]; [by left|by right; left].
Qed.

Lemma exec_outcome (es : list event) (sys sys' : System) :
  exec sys es = Some sys' ->
  (forall i t, tasks sys !! i = Some t -> outcome_ok (t_call t) (t_pc t)) ->
  forall i t, tasks sys' !! i = Some t -> outcome_ok (t_call t) (t_pc t).
Proof.
  revert sys. induction es as [|e es IH]; simpl; intros sys.
  - by intros [= <-].
  - destruct (step sys e) as [sys1|] eqn:E; [|done].
    intros H Hok. apply (IH _ H). clear IH H.
    apply step_cases in E as [(-> & _)|(j & tj & p' & _ & Hj & Hmove & ->)]; [done|].
    intros i t [[-> ->]|[_ Hi]]%(set_pc_lookup _ _ _ _ _ _ Hj); simpl;
      [|by apply (Hok i)].
    eapply move_outcome; [exact Hmove|]. by apply (Hok j).
Qed.

(** X7. Under every schedule a call of the service ends in one of four ways
    and no other: it returns a balance, and then its amount was positive and
    the balance is that of its user; or it throws the invalid-amount error of
    its kind, and then its amount was not positive; or, a use only, it throws
    the insufficient-balance error; or it throws the lock-timeout error of
    its key. *)
Theorem calls_end_in_four_ways (cs : list Call) (w : World) (es : list event)
  (sys : System) (i : nat) (t : Task) (r : exn + UserPoint) :
  exec (start cs w) es = Some sys ->
  tasks sys !! i = Some t ->
  t_pc t = Finished r ->
  match r with
  | inr v => 0 < c_amount (t_call t) /\ up_id v = c_userId (t_call t)
  | inl e =>
      (c_amount (t_call t) <= 0 /\ e = InvalidAmount (c_type (t_call t)))
      \/ (0 < c_amount (t_call t) /\ c_type (t_call t) = USE /\ e = InsufficientBalance)
      \/ e = lock_timeout (c_key (t_call t))
  end.
Proof.
  intros Hexec Hi Hpc.
  assert (outcome_ok (t_call t) (t_pc t)) as Hok.
  { eapply (exec_outcome es); [exact Hexec| |exact Hi].
    by intros j tj [-> _]%start_lookup. }
  rewrite Hpc in Hok. by destruct r.
Qed.

(** Four queued charges: call 3 ends with the lock-timeout error. *)
Lemma calls_end_in_four_ways_witness :
  exists sys,
    exec (start four_charges w0) (crowded_schedule ++ [Resume 3%nat]) = Some sys
    /\ tasks sys !! 3%nat = Some (timed_out (chargePoint 1 200))
    /\ ((c_amount (chargePoint 1 200) <= 0
         /\ lock_timeout (userKey 1) = InvalidAmount CHARGE)
        \/ (0 < c_amount (chargePoint 1 200)
            /\ c_type (chargePoint 1 200) = USE
            /\ lock_timeout (userKey 1) = InsufficientBalance)
        \/ lock_timeout (userKey 1) = lock_timeout (c_key (chargePoint 1 200))).
Proof.
  eexists. split; [vm_compute; reflexivity|]. split; [reflexivity|].
  refine (calls_end_in_four_ways four_charges w0 (crowded_schedule ++ [Resume 3%nat])
            _ 3 (timed_out (chargePoint 1 200)) (inl (lock_timeout (userKey 1))) _ _ _).
  - vm_compute. reflexivity.
  - reflexivity.
  - reflexivity.
Defined.

(** ** The history under every schedule *)

Lemma logged_calls_set_pc_same (i : nat) (t : Task) (p : pc) (ts : list Task) :
  ts !! i = Some t ->
  logged (t_call t) p = logged (t_call t) (t_pc t) ->
  logged_calls (set_pc i t p ts) = logged_calls ts.
Proof.
  unfold set_pc. revert i. induction ts as [|t0 ts IH]; intros [|i]; simpl; try done.
  - by intros [= ->] ->.
  - intros Hi Hsame. by rewrite (IH _ Hi Hsame).
Qed.

Lemma logged_calls_set_pc_new (i : nat) (t : Task) (p : pc) (ts : list Task) x :
  ts !! i = Some t ->
  logged (t_call t) (t_pc t) = [] ->
  logged (t_call t) p = [x] ->
  Permutation (logged_calls (set_pc i t p ts)) (logged_calls ts ++ [x]).
Proof.
  unfold set_pc. revert i. induction ts as [|t0 ts IH]; intros [|i]; simpl; try done.
  - intros [= ->] -> ->. simpl. apply Permutation_cons_append.
  - intros Hi Hold Hnew. rewrite <- app_assoc. by rewrite (IH _ Hi Hold Hnew).
Qed.

(** A move appends to the history exactly when a closure returns. *)
Lemma move_history (i : nat) (c : Call) p m w p' m' w' :
  move i c p m w p' m' w' ->
  (pointHistoryTable w' = pointHistoryTable w /\ logged c p' = logged c p)
  \/ exists h, pointHistoryTable w' = pointHistoryTable w ++ [h]
               /\ logged c p = [] /\ logged c p' = [entry_sig h].
Proof.
  intros [p0 m0 w1 maxW holder Hhead| p0 m0 w1 maxW holder Hhead|p0 m0 w1 maxW Hhead Hfree
         |s m0 w1 r w2 Hop|r m0 w1].
  - left. by destruct p0.
  - left. by destruct p0.
  - left. unfold after_call, op_call. destruct (c_amount c <=? 0); by destruct p0.
  - destruct s as [|newPoint updateTime|newPoint updateTime]; revert Hop; run_M.
    + left. revert Hop. destruct (c_type c); [|destruct (_ <? _)]; by intros [= <- <-].
    + left. revert Hop. by intros [= <- <-].
    + right. revert Hop. intros [= <- <-]. eexists. by split.
  - left. by destruct r.
Qed.

Lemma exec_history (w0' : World) (es : list event) (sys sys' : System) :
  exec sys es = Some sys' ->
  (exists new, pointHistoryTable (world sys) = pointHistoryTable w0' ++ new
               /\ Permutation (entry_sig <$> new) (logged_calls (tasks sys))) ->
  exists new, pointHistoryTable (world sys') = pointHistoryTable w0' ++ new
              /\ Permutation (entry_sig <$> new) (logged_calls (tasks sys')).
Proof.
  revert sys. induction es as [|e es IH]; simpl; intros sys.
  - by intros [= <-].
  - destruct (step sys e) as [sys1|] eqn:E; [|done].
    intros H (new & Hlog & Hperm). apply (IH _ H). clear IH H.
    apply step_cases in E as [(-> & _ & -> & _)|(j & tj & p' & _ & Hj & Hmove & ->)].
    { by exists new. }
    destruct (move_history _ _ _ _ _ _ _ _ Hmove) as [[-> Hsame]|(h & -> & Hold & Hnew)].
    + exists new. split; [done|]. by rewrite (logged_calls_set_pc_same _ _ _ _ Hj Hsame).
    + exists (new ++ [h]). split; [by rewrite Hlog, app_assoc|].
      rewrite (logged_calls_set_pc_new _ _ _ _ _ Hj Hold Hnew).
      rewrite fmap_app. simpl. by rewrite Hperm.
Qed.

Lemma logged_calls_start (cs : list Call) (w : World) :
  logged_calls (tasks (start cs w)) = [].
Proof. unfold start; simpl. induction cs as [|c cs IH]; simpl; done. Qed.

(** X8. Under every schedule, hold-timeouts included, the history only
    grows, and what the calls have added to it is, up to order, one entry for
    every call whose closure has returned a balance, with the user, the
    amount and the kind of the call and the time of the returned balance; a
    call that was rejected or is still under way has no entry. *)
Theorem history_records_every_accepted_call (cs : list Call) (w : World)
  (es : list event) (sys : System) :
  exec (start cs w) es = Some sys ->
  exists new,
    pointHistoryTable (world sys) = pointHistoryTable w ++ new
    /\ Permutation (entry_sig <$> new) (logged_calls (tasks sys)).
Proof.
  intros Hexec. apply (exec_history w es _ _ Hexec).
  exists []. rewrite app_nil_r, logged_calls_start. by split.
Qed.

(** The run that loses an update still logs both charges. *)
Lemma history_records_every_accepted_call_witness :
  exists sys,
    exec (start [chargePoint 1 1000; chargePoint 1 500] w0) lost_update_schedule
      = Some sys
    /\ exists new,
         pointHistoryTable (world sys) = pointHistoryTable w0 ++ new
         /\ Permutation (entry_sig <$> new) (logged_calls (tasks sys)).
Proof.
  eexists. split; [vm_compute; reflexivity|].
  apply (history_records_every_accepted_call [chargePoint 1 1000; chargePoint 1 500]
           w0 lost_update_schedule).
  vm_compute. reflexivity.
Defined.

(** ** What the callers get back *)

Lemma move_returned (userId : Z) (i : nat) (c : Call) p m w p' m' w' :
  move i c p m w p' m' w' ->
  0 <= balance w userId ->
  (c_userId c = userId -> returned_ok c p) ->
  0 <= balance w' userId /\ (c_userId c = userId -> returned_ok c p').
Proof.
  intros Hmove Hbal Hsafe.
  destruct Hmove as [| |p m w maxW Hhead Hfree|s m w r w' Hop|r m w]; try done.
  - split; [done|]. intros _. unfold after_call, op_call.
    destruct (c_amount c <=? 0) eqn:E; simpl; [done|lia].
  - destruct s as [|newPoint updateTime|newPoint updateTime]; revert Hop; run_M.
    + rewrite balance_default.
      destruct (c_type c); [|destruct (balance w (c_userId c) <? c_amount c) eqn:E];
        intros [= <- <-]; (split; [done|]); intros Hu; specialize (Hsafe Hu);
        simpl in *; subst; try done; apply toDouble_nonneg; lia.
    + intros [= <- <-]. split; [|done].
      destruct (decide (c_userId c = userId)) as [Hu|Hu].
      * subst userId. rewrite balance_insert. by apply Hsafe.
      * by rewrite balance_insert_ne.
    + by intros [= <- <-].
Qed.

Lemma exec_returned (userId : Z) (es : list event) (sys sys' : System) :
  exec sys es = Some sys' -> returned_inv userId sys -> returned_inv userId sys'.
Proof.
  revert sys. induction es as [|e es IH]; simpl; intros sys.
  - by intros [= <-].
  - destruct (step sys e) as [sys1|] eqn:E; [|done].
    intros H Hinv. apply (IH _ H). clear IH H. destruct Hinv as [Hbal Hsafe].
    apply step_cases in E as [(Hts & Htbl & _)|(i & t & p' & _ & Hi & Hmove & Hts)].
    + split; [by rewrite (balance_same_table _ _ _ Htbl)|]. by rewrite Hts.
    + destruct (move_returned userId _ _ _ _ _ _ _ _ Hmove Hbal) as [Hbal' Hsafe'].
      { intros Hu. by apply (Hsafe i t). }
      split; [done|]. intros j t'. rewrite Hts.
      intros [[-> ->]|[_ Hj]]%(set_pc_lookup _ _ _ _ _ _ Hi); simpl; [done|].
      by apply (Hsafe j).
Qed.

(** X9. Whatever calls are made and however the event loop interleaves them,
    their timers included, a call on a user whose stored balance is not
    negative at the start never returns a negative balance to its caller. *)
Theorem returned_balance_never_negative (cs : list Call) (w : World) (es : list event)
  (sys : System) (i : nat) (t : Task) (v : UserPoint) :
  0 <= balance w (c_userId (t_call t)) ->
  exec (start cs w) es = Some sys ->
  tasks sys !! i = Some t ->
  t_pc t = Finished (inr v) ->
  0 <= up_point v.
Proof.
  intros Hbal Hexec Hi Hpc.
  assert (returned_inv (c_userId (t_call t)) sys) as [_ Hret].
  { eapply exec_returned; [exact Hexec|].
    split; [done|]. by intros j tj [-> _]%start_lookup _. }
  specialize (Hret i t Hi eq_refl). by rewrite Hpc in Hret.
Qed.

(** In the run that loses an update the second charge returns 500. *)
Lemma returned_balance_never_negative_witness :
  exists sys,
    exec (start [chargePoint 1 1000; chargePoint 1 500] w0) lost_update_schedule
      = Some sys
    /\ tasks sys !! 1%nat
       = Some (mkTask (chargePoint 1 500) (Finished (inr (mkUserPoint 1 500 5100))))
    /\ 0 <= up_point (mkUserPoint 1 500 5100).
Proof.
  eexists. split; [vm_compute; reflexivity|]. split; [reflexivity|].
  refine (returned_balance_never_negative [chargePoint 1 1000; chargePoint 1 500] w0
            lost_update_schedule _ 1
            (mkTask (chargePoint 1 500) (Finished (inr (mkUserPoint 1 500 5100))))
            (mkUserPoint 1 500 5100) _ _ _ _).
  - vm_compute. discriminate.
  - vm_compute. reflexivity.
  - reflexivity.
  - reflexivity.
Defined.

(** ** Reading after writing *)



(** X11. A charge followed by a use of the same amount brings the balance
    back: for a balance that is not negative and a sum within the safe
    integers both calls succeed, the use returns the balance from before the
    charge, that balance is stored again, and the history has grown by a
    CHARGE and a USE entry of that amount. *)
Theorem charge_then_use_restores (lat lat' : Latency) (userId amount : Z) (w : World) :
  0 < amount ->
  0 <= balance w userId ->
  balance w userId + amount <= MAX_SAFE_INTEGER ->
  exists r w1 r' w2 h h',
    chargePoint_operation lat userId amount w = (inr r, w1)
    /\ usePoint_operation lat' userId amount w1 = (inr r', w2)
    /\ up_point r' = balance w userId
    /\ balance w2 userId = balance w userId
    /\ pointHistoryTable w2 = pointHistoryTable w ++ [h; h']
    /\ (ph_type h, ph_amount h) = (CHARGE, amount)
    /\ (ph_type h', ph_amount h') = (USE, amount).
Proof.
  intros Hpos Hbal Hsafe.
  assert ((amount <=? 0) = false) as E by lia.
  assert ((balance w userId + amount <? amount) = false) as E' by lia.
  assert (toDouble (balance w userId + amount) = balance w userId + amount) as Hsum.
  { apply toDouble_safe. unfold isSafeInteger, MAX_SAFE_INTEGER in *. lia. }
  assert (toDouble (balance w userId + amount - amount) = balance w userId) as Hdiff.
  { replace (balance w userId + amount - amount) with (balance w userId) by lia.
    apply toDouble_safe. unfold isSafeInteger, MAX_SAFE_INTEGER in *. lia. }
  do 6 eexists.
  split.
  { run_M. rewrite E, balance_default. unfold js_add. rewrite Hsum. reflexivity. }
  split.
  { run_M. rewrite E. simpl. rewrite lookup_insert_eq. simpl. rewrite E'.
    unfold js_sub. rewrite Hdiff. reflexivity. }
  split; [reflexivity|]. split; [apply balance_insert|].
  split; [simpl; rewrite <- app_assoc; reflexivity|]. by split.
Qed.

(** User 1 has 1000, charges 250 and uses 250: 1000 again. *)
Lemma charge_then_use_restores_witness :
  exists r w1 r' w2 h h',
    chargePoint_operation (mkLatency 3 4 5) 1 250 w1000 = (inr r, w1)
    /\ usePoint_operation (mkLatency 1 1 1) 1 250 w1 = (inr r', w2)
    /\ up_point r' = balance w1000 1
    /\ balance w2 1 = balance w1000 1
    /\ pointHistoryTable w2 = pointHistoryTable w1000 ++ [h; h']
    /\ (ph_type h, ph_amount h) = (CHARGE, 250)
    /\ (ph_type h', ph_amount h') = (USE, 250).
Proof.
  apply (charge_then_use_restores (mkLatency 3 4 5) (mkLatency 1 1 1) 1 250 w1000).
  - lia.
  - vm_compute. discriminate.
  - vm_compute. discriminate.
Defined.

(** Of three charges made together, the first alone is in its critical
    section once all have been called. *)
Lemma mutual_exclusion_witness :
  exists sys,
    exec (start three_charges w0) [Resume 0%nat; Resume 1%nat; Resume 2%nat] = Some sys
    /\ forall (j : nat) (tj : Task),
         tasks sys !! j = Some tj -> holding (t_pc tj) ->
         c_key (t_call tj) = userKey 1 -> j = 0%nat.
Proof.
  eexists. split; [vm_compute; reflexivity|].
  intros j tj Hj Hh Hkey.
  refine (mutual_exclusion three_charges w0 [Resume 0%nat; Resume 1%nat; Resume 2%nat]
            _ j 0 tj (mkTask (chargePoint 1 1000) (Running AwaitSelect))
            _ _ _ Hj _ Hh _ Hkey).
  - repeat constructor.
  - no_timeout_here.
  - vm_compute. reflexivity.
  - reflexivity.
  - exact I.
Defined.
